(** * Doppler radar speed trap: the signal-simulation engine

    A shallow embedding of the numerical core of the repository:
    - [src/types.ts]          the records and the constant [C];
    - [src/utils/physics.ts]  the Doppler and DSP formulas;
    - the [App] component     the measurement (fastest car, quantised shift),
                              the cars and their handlers;
    - the [Oscilloscope] component, [generateDiscreteSpectrum];
    - the [HighwayScene] component, the positions of the cars.

    Numbers.  A JavaScript [number] is modelled by [number]: an exact
    rational, or one of the three special values [Infinity], [-Infinity]
    and [NaN].  The arithmetic follows IEEE 754 on the special values
    (a division by zero gives an infinity or [NaN], nothing raises), and is
    exact on the rationals: the rounding and the overflow of binary64 are
    not part of the model, a decimal literal such as [3.6] stands for the
    rational 36/10, and zero carries no sign (every zero is [+0]). *)

From Stdlib Require Import QArith Qabs Qround ZArith Lia Lqa Bool String.
From stdpp Require Import base list.

Local Open Scope Q_scope.

(** ** JavaScript numbers *)

Inductive number : Type :=
  | Fin (q : Q)
  | PInf
  | NInf
  | NaN.

(** The operators and the functions of [Math] the engine uses. *)
Module Num.

(** Sign of a rational: [Gt] positive, [Lt] negative, [Eq] zero. *)
Definition sgn (q : Q) : comparison := (q ?= 0)%Q.

Definition is_zero (q : Q) : bool :=
  match sgn q with Eq => true | _ => false end.

Definition is_finite (a : number) : bool :=
  match a with Fin _ => true | _ => false end.

Definition is_nan (a : number) : bool :=
  match a with NaN => true | _ => false end.

(** [a + b] *)
Definition add (a b : number) : number :=
  match a, b with
  | NaN, _ | _, NaN => NaN
  | Fin x, Fin y => Fin (x + y)
  | PInf, NInf | NInf, PInf => NaN
  | PInf, _ | _, PInf => PInf
  | NInf, _ | _, NInf => NInf
  end.

(** [a - b] *)
Definition sub (a b : number) : number :=
  match a, b with
  | NaN, _ | _, NaN => NaN
  | Fin x, Fin y => Fin (x - y)
  | PInf, PInf | NInf, NInf => NaN
  | PInf, _ | _, NInf => PInf
  | NInf, _ | _, PInf => NInf
  end.

(** An infinity of the sign of [q]; [0 * Infinity] is [NaN]. *)
Definition inf_times (q : Q) (positive : bool) : number :=
  match sgn q with
  | Eq => NaN
  | Gt => if positive then PInf else NInf
  | Lt => if positive then NInf else PInf
  end.

(** [a * b] *)
Definition mul (a b : number) : number :=
  match a, b with
  | NaN, _ | _, NaN => NaN
  | Fin x, Fin y => Fin (x * y)
  | Fin x, PInf | PInf, Fin x => inf_times x true
  | Fin x, NInf | NInf, Fin x => inf_times x false
  | PInf, PInf | NInf, NInf => PInf
  | PInf, NInf | NInf, PInf => NInf
  end.

(** [a / b]: a finite division by zero gives an infinity of the sign of
    the numerator, and [0 / 0] is [NaN]. *)
Definition div (a b : number) : number :=
  match a, b with
  | NaN, _ | _, NaN => NaN
  | Fin x, Fin y =>
      if is_zero y then
        match sgn x with Eq => NaN | Gt => PInf | Lt => NInf end
      else Fin (x / y)
  | Fin _, (PInf | NInf) => Fin 0
  | (PInf | NInf), (PInf | NInf) => NaN
  | PInf, Fin y => match sgn y with Lt => NInf | _ => PInf end
  | NInf, Fin y => match sgn y with Lt => PInf | _ => NInf end
  end.

(** [Math.abs] *)
Definition abs (a : number) : number :=
  match a with
  | Fin x => Fin (Qabs x)
  | PInf | NInf => PInf
  | NaN => NaN
  end.

(** [Math.round]: the nearest integer, a tie going up, [floor (x + 1/2)]. *)
Definition round (a : number) : number :=
  match a with
  | Fin x => Fin (inject_Z (Qfloor (x + (1 # 2))))
  | _ => a
  end.

(** [a < b]; every comparison with [NaN] is false. *)
Definition lt (a b : number) : bool :=
  match a, b with
  | NaN, _ | _, NaN => false
  | Fin x, Fin y => match (x ?= y)%Q with Lt => true | _ => false end
  | NInf, (Fin _ | PInf) => true
  | Fin _, PInf => true
  | _, _ => false
  end.

(** [a > b] *)
Definition gt (a b : number) : bool := lt b a.

(** [a >= b]; it is not the negation of [a < b] on [NaN]. *)
Definition ge (a b : number) : bool :=
  match a, b with
  | NaN, _ | _, NaN => false
  | Fin x, Fin y => match (x ?= y)%Q with Lt => false | _ => true end
  | PInf, _ => true
  | _, NInf => true
  | _, _ => false
  end.

(** [Math.max a b]; [NaN] if one argument is. *)
Definition max (a b : number) : number :=
  match a, b with
  | NaN, _ | _, NaN => NaN
  | _, _ => if lt a b then b else a
  end.

(** Numbers are compared up to the equality of rationals. *)
Definition eqv (a b : number) : Prop :=
  match a, b with
  | Fin x, Fin y => x == y
  | PInf, PInf | NInf, NInf | NaN, NaN => True
  | _, _ => False
  end.

(** The number of an integer. *)
Definition of_Z (z : Z) : number := Fin (inject_Z z).
Definition of_nat (n : nat) : number := of_Z (Z.of_nat n).

(** [Math.floor] *)
Definition floor (a : number) : number :=
  match a with
  | Fin x => Fin (inject_Z (Qfloor x))
  | _ => a
  end.

(** [a === b] on numbers: [NaN] equals nothing, itself included. *)
Definition strict_eq (a b : number) : bool :=
  match a, b with
  | Fin x, Fin y => Qeq_bool x y
  | PInf, PInf | NInf, NInf => true
  | _, _ => false
  end.

(** The equality of the keys of a [Map] (SameValueZero): [===], except
    that [NaN] is the same key as [NaN]. *)
Definition same_value_zero (a b : number) : bool :=
  match a, b with
  | NaN, NaN => true
  | _, _ => strict_eq a b
  end.

(** The integer part of a rational, towards zero. *)
Definition truncate (q : Q) : Z :=
  if Qle_bool 0 q then Qfloor q else Qceiling q.

(** [a % b]: the remainder of the truncated division, of the sign of [a]. *)
Definition rem (a b : number) : number :=
  match a, b with
  | NaN, _ | _, NaN => NaN
  | (PInf | NInf), _ => NaN
  | Fin x, (PInf | NInf) => Fin x
  | Fin x, Fin y =>
      if is_zero y then NaN else Fin (x - y * inject_Z (truncate (x / y)))
  end.

(** [Math.max(...values)]: [-Infinity] when there is no value. *)
Definition max_of (values : list number) : number :=
  fold_left max values NInf.

End Num.

#[global] Instance number_equiv : Equiv number := Num.eqv.

Declare Scope num_scope.
Delimit Scope num_scope with num.
Bind Scope num_scope with number.
Infix "+" := Num.add : num_scope.
Infix "-" := Num.sub : num_scope.
Infix "*" := Num.mul : num_scope.
Infix "/" := Num.div : num_scope.
Infix "<?" := Num.lt : num_scope.
Infix ">?" := Num.gt : num_scope.
Infix ">=?" := Num.ge : num_scope.

(** ** [src/types.ts] *)

Record RadarParams : Type := mkRadarParams {
  frequencyGHz : number;
  intermediateFreqMHz : number;
  adcSamplingRateMHz : number;
  basebandSampleRateHz : number;
  fftSize : number
}.

Record Car : Type := mkCar {
  id : number;
  x : number;
  lane : number;
  color : string;
  speedKmh : number
}.

Definition SPEED_LIMIT_KMH : number := Fin 100.

(** Speed of light in m/s. *)
Definition C : number := Fin 299792458.

(** ** [src/utils/physics.ts]

    The literal [1e9] is written [1000000000]. *)

(** [calculateDopplerShift]: [f_d = (2 * v * f_0 * cos(theta)) / c].
    [cosTheta] is the value of [Math.cos(thetaRad)]; the cosine itself is
    not modelled. *)
Definition calculateDopplerShift
    (velocityKmh frequencyGHz cosTheta : number) : number :=
  let velocityMs := (velocityKmh / Fin 3.6)%num in
  let frequencyHz := (frequencyGHz * Fin 1000000000)%num in
  let shift := ((Fin 2 * velocityMs * frequencyHz * cosTheta) / C)%num in
  shift.

(** The call with the default [thetaDegrees = 0], the only one in the
    repository: [thetaRad] is [0] and [Math.cos(0)] is [1]. *)
Definition calculateDopplerShift0 (velocityKmh frequencyGHz : number) : number :=
  calculateDopplerShift velocityKmh frequencyGHz (Fin 1).

(** [calculateSpeedFromShift]: [v = (c * f_d) / (2 * f_0)], in km/h. *)
Definition calculateSpeedFromShift (shiftHz frequencyGHz : number) : number :=
  let frequencyHz := (frequencyGHz * Fin 1000000000)%num in
  let velocityMs := ((shiftHz * C) / (Fin 2 * frequencyHz))%num in
  (velocityMs * Fin 3.6)%num.

Definition calculateWavelengthMm (frequencyGHz : number) : number :=
  let frequencyHz := (frequencyGHz * Fin 1000000000)%num in
  ((C / frequencyHz) * Fin 1000)%num.

(** [calculateFreqResolution]: sample rate / FFT size. *)
Definition calculateFreqResolution (sampleRateHz fftSize : number) : number :=
  (sampleRateHz / fftSize)%num.

Definition calculateSpeedResolution
    (sampleRateHz fftSize frequencyGHz : number) : number :=
  let freqRes := calculateFreqResolution sampleRateHz fftSize in
  calculateSpeedFromShift freqRes frequencyGHz.

Definition calculateMaxUnambiguousSpeed
    (sampleRateHz frequencyGHz : number) : number :=
  let maxFreq := (sampleRateHz / Fin 2)%num in
  calculateSpeedFromShift maxFreq frequencyGHz.

Record SimulationState : Type := mkSimulationState {
  radar : RadarParams;
  cars : list Car;
  fastestTargetSpeed : number;
  primaryDopplerShiftHz : number;
  speedResolution : number;
  maxSpeed : number
}.

(** ** The [App] component: derived metrics and the measurement *)

Definition resolutionKmh (radarParams : RadarParams) : number :=
  calculateSpeedResolution (basebandSampleRateHz radarParams)
    (fftSize radarParams) (frequencyGHz radarParams).

Definition maxSpeedKmh (radarParams : RadarParams) : number :=
  calculateMaxUnambiguousSpeed (basebandSampleRateHz radarParams)
    (frequencyGHz radarParams).

Definition wavelengthMm (radarParams : RadarParams) : number :=
  calculateWavelengthMm (frequencyGHz radarParams).

(** Measurement time [T_obs = N / Fs], in ms. *)
Definition observationTimeMs (radarParams : RadarParams) : number :=
  ((fftSize radarParams / basebandSampleRateHz radarParams) * Fin 1000)%num.

(** The callback of the [reduce]:
    [(prev, current) => (prev.speedKmh > current.speedKmh) ? prev : current]. *)
Definition faster (prev current : Car) : Car :=
  if (speedKmh prev >? speedKmh current)%num then prev else current.

(** [fastestCar]: [null] on the empty list, otherwise a [reduce] with no
    initial value, which starts from the first car and runs over the others
    from left to right. *)
Definition fastestCar (cars : list Car) : option Car :=
  match cars with
  | [] => None
  | first :: others => Some (fold_left faster others first)
  end.

(** The values [App] derives from the fastest car; [errorKmh] is the
    expression [measuredSpeedKmh - realTargetSpeed] of the display. *)
Record Measurement : Type := mkMeasurement {
  realTargetSpeed : number;
  realDopplerShift : number;
  freqResolutionHz : number;
  measuredShiftHz : number;
  measuredSpeedKmh : number;
  errorKmh : number
}.

(** The constants [realTargetSpeed], [realDopplerShift], [freqResolutionHz],
    [measuredShiftHz] and [measuredSpeedKmh] of [App], in one record. *)
Definition measure (radarParams : RadarParams) (cars : list Car) : Measurement :=
  let realTargetSpeed :=
    match fastestCar cars with
    | Some car => speedKmh car
    | None => Fin 0
    end in
  let realDopplerShift :=
    calculateDopplerShift0 realTargetSpeed (frequencyGHz radarParams) in
  let freqResolutionHz :=
    (basebandSampleRateHz radarParams / fftSize radarParams)%num in
  let measuredShiftHz :=
    (Num.round (realDopplerShift / freqResolutionHz) * freqResolutionHz)%num in
  let measuredSpeedKmh :=
    calculateSpeedFromShift measuredShiftHz (frequencyGHz radarParams) in
  mkMeasurement realTargetSpeed realDopplerShift freqResolutionHz
    measuredShiftHz measuredSpeedKmh (measuredSpeedKmh - realTargetSpeed)%num.

(** The [simState] that [App] hands to the [Oscilloscope]. *)
Definition simState (radarParams : RadarParams) (cars : list Car) : SimulationState :=
  let m := measure radarParams cars in
  mkSimulationState radarParams cars (realTargetSpeed m) (realDopplerShift m)
    (resolutionKmh radarParams) (maxSpeedKmh radarParams).

(** ** The [Oscilloscope] component: [generateDiscreteSpectrum] *)

(** The two errors the JavaScript runtime raises in this code: an invalid
    array length, and a property read on [undefined]. *)
Inductive JsError : Type := RangeError | TypeError.

(** The outcome of a computation with a loop: a value, an exception, or
    the fuel of the loop used up. *)
Inductive result (A : Type) : Type :=
  | Ok (a : A)
  | Throw (e : JsError)
  | OutOfFuel.
Arguments Ok {A} a.
Arguments Throw {A} e.
Arguments OutOfFuel {A}.

#[global] Instance result_ret : MRet result := @Ok.
#[global] Instance result_bind : MBind result := fun A B f m =>
  match m with
  | Ok a => f a
  | Throw e => Throw e
  | OutOfFuel => OutOfFuel
  end.

(** One point of the chart. *)
Record SpectrumBin : Type := mkSpectrumBin {
  binIndex : number;
  freq : number;
  speed : number;
  amp : number
}.

Definition is_integer (q : Q) : bool := Qeq_bool (inject_Z (Qfloor q)) q.

(** The array index a number denotes, if it is one: a non-negative
    integer. *)
Definition array_index (k : number) : option nat :=
  match k with
  | Fin q =>
      if is_integer q && (0 <=? Qfloor q)%Z
      then Some (Z.to_nat (Qfloor q)) else None
  | _ => None
  end.

(** [new Array(len).fill(0)]: a [RangeError] unless [len] is an integer
    from [0] to [2^32 - 1]. *)
Definition newArrayFill0 (len : number) : result (list number) :=
  match array_index len with
  | Some n =>
      if (Z.of_nat n <? 2 ^ 32)%Z then Ok (replicate n (Fin 0))
      else Throw RangeError
  | None => Throw RangeError
  end.

Definition addAmp (delta : number) (d : SpectrumBin) : SpectrumBin :=
  mkSpectrumBin (binIndex d) (freq d) (speed d) (amp d + delta)%num.

(** [data[k].amp += delta]: a [TypeError] when [data[k]] is [undefined]. *)
Definition bumpAmp (data : list SpectrumBin) (k delta : number)
    : result (list SpectrumBin) :=
  match array_index k with
  | Some i =>
      match data !! i with
      | Some _ => Ok (alter (addAmp delta) i data)
      | None => Throw TypeError
      end
  | None => Throw TypeError
  end.

(** The aliasing loop:
    [while (effectiveFreq > maxFreq)
       effectiveFreq = Math.abs(effectiveFreq - basebandSampleRateHz)].
    [fuel] bounds the number of iterations. *)
Fixpoint aliasWrap (fuel : nat) (maxFreq sampleRateHz effectiveFreq : number)
    : result number :=
  if (effectiveFreq >? maxFreq)%num then
    match fuel with
    | O => OutOfFuel
    | S fuel' =>
        aliasWrap fuel' maxFreq sampleRateHz
          (Num.abs (effectiveFreq - sampleRateHz))
    end
  else Ok effectiveFreq.

(** The first half of the body of [cars.forEach], for a car with
    [speedKmh > 0]: the Doppler shift, its aliasing into the band, and the
    bin it is rounded to ([shiftHz], [maxFreq], [effectiveFreq], [exactBin]
    and [binIndex] of the source). *)
Definition targetBin (fuel : nat) (radar : RadarParams) (freqRes : number)
    (car : Car) : result number :=
  let shiftHz := calculateDopplerShift0 (speedKmh car) (frequencyGHz radar) in
  let maxFreq := (basebandSampleRateHz radar / Fin 2)%num in
  effectiveFreq ← aliasWrap fuel maxFreq (basebandSampleRateHz radar)
                    (Num.abs shiftHz);
  let exactBin := (effectiveFreq / freqRes)%num in
  Ok (Num.round exactBin).

(** The guard [binIndex >= 0 && binIndex < numBins]. *)
Definition binInRange (binIndex numBins : number) : bool :=
  (binIndex >=? Fin 0)%num && (binIndex <? numBins)%num.

(** The body of [cars.forEach]: main lobe and leakage of one car. *)
Definition addSignal (fuel : nat) (radar : RadarParams) (numBins freqRes : number)
    (data : list SpectrumBin) (car : Car) : result (list SpectrumBin) :=
  if (speedKmh car >? Fin 0)%num then
    binIndex ← targetBin fuel radar freqRes car;
    if binInRange binIndex numBins then
      data ← bumpAmp data binIndex (Fin 100);
      data ← (if (binIndex >? Fin 0)%num
              then bumpAmp data (binIndex - Fin 1)%num (Fin 30) else Ok data);
      if (binIndex <? numBins - Fin 1)%num
      then bumpAmp data (binIndex + Fin 1)%num (Fin 30) else Ok data
    else Ok data
  else Ok data.

(** [cars.forEach(...)], the array [data] threaded through the calls. *)
Fixpoint forEachCar (fuel : nat) (radar : RadarParams) (numBins freqRes : number)
    (cars : list Car) (data : list SpectrumBin) : result (list SpectrumBin) :=
  match cars with
  | [] => Ok data
  | car :: cars' =>
      data ← addSignal fuel radar numBins freqRes data car;
      forEachCar fuel radar numBins freqRes cars' data
  end.

(** [generateDiscreteSpectrum].  [random i] is the value of the [i]-th call
    of [Math.random()], one call per bin in the order of the indices. *)
Definition generateDiscreteSpectrum (fuel : nat) (random : nat → number)
    (simState : SimulationState) : result (list SpectrumBin) :=
  let radar := radar simState in
  let numBins := (fftSize radar / Fin 2)%num in
  let freqRes := (basebandSampleRateHz radar / fftSize radar)%num in
  zeros ← newArrayFill0 numBins;
  let data :=
    imap (fun i _ =>
      mkSpectrumBin (Num.of_nat i) (Num.of_nat i * freqRes)%num
        (calculateSpeedFromShift (Num.of_nat i * freqRes)%num (frequencyGHz radar))
        (Fin 2 + random i * Fin 2)%num) zeros in
  data ← forEachCar fuel radar numBins freqRes (cars simState) data;
  data ← bumpAmp data (Fin 0) (Fin 150);
  data ← bumpAmp data (Fin 1) (Fin 50);
  let visualCutoffSpeed := Num.max (Fin 200) (maxSpeed simState * Fin 0.8)%num in
  Ok (List.filter (fun d => (speed d <? visualCutoffSpeed)%num) data).

(** ** The [App] component: the state of the cars and its handlers *)

Definition CAR_COLORS : list string :=
  ["#ef4444"; "#3b82f6"; "#22c55e"; "#eab308"; "#a855f7"; "#ec4899";
   "#06b6d4"]%string.

(** [CAR_COLORS[k]]: [undefined], here [None], unless [k] is an index of
    the array. *)
Definition colorAt (k : number) : option string :=
  i ← array_index k; CAR_COLORS !! i.

(** The initializer of the [cars] state,
    [speeds.map((speed, index) => ({id: index, x: Math.random() * 800,
       lane: index % 3, color: CAR_COLORS[index % CAR_COLORS.length],
       speedKmh: speed}))],
    from the element of index [index] on.  [random i] is the value of the
    [i]-th call of [Math.random()].  A car whose colour would be
    [undefined] is no [Car]: the result is then [None]. *)
Fixpoint initialCarsFrom (index : nat) (random : nat → number)
    (speeds : list number) : option (list Car) :=
  match speeds with
  | [] => Some []
  | speed :: speeds' =>
      color ← colorAt (Num.rem (Num.of_nat index)
                         (Num.of_nat (length CAR_COLORS)));
      rest ← initialCarsFrom (S index) random speeds';
      Some (mkCar (Num.of_nat index) (random index * Fin 800)%num
              (Num.rem (Num.of_nat index) (Fin 3)) color speed :: rest)
  end.

Definition initialCars (random : nat → number) (speeds : list number)
    : option (list Car) :=
  initialCarsFrom 0 random speeds.

Definition withSpeed (c : Car) (newSpeed : number) : Car :=
  mkCar (id c) (x c) (lane c) (color c) newSpeed.

(** [updateCarSpeed]:
    [prev.map(c => c.id === id ? { ...c, speedKmh: newSpeed } : c)]. *)
Definition updateCarSpeed (targetId newSpeed : number) (prev : list Car)
    : list Car :=
  map (fun c => if Num.strict_eq (id c) targetId then withSpeed c newSpeed else c)
    prev.

(** [addCar]: nothing from ten cars on; otherwise a car at 80 km/h is
    appended, its [id] one more than the largest.  [None] when the colour
    of the new car would be [undefined]. *)
Definition addCar (prev : list Car) : option (list Car) :=
  if (10 <=? length prev)%nat then Some prev
  else
    let newId :=
      if (0 <? length prev)%nat
      then (Num.max_of (map id prev) + Fin 1)%num else Fin 0 in
    color ← colorAt (Num.rem newId (Num.of_nat (length CAR_COLORS)));
    Some (prev ++ [mkCar newId (Fin (-100))
                     (Num.rem (Num.of_nat (length prev)) (Fin 3)) color (Fin 80)]).

(** [removeCar]: [prev.slice(0, -1)]. *)
Definition removeCar (prev : list Car) : list Car :=
  take (length prev - 1) prev.

(** [randomizeSpeeds]:
    [prev.map(c => ({ ...c, speedKmh: Math.floor(Math.random() * 100) + 40 }))]. *)
Definition randomizeSpeeds (random : nat → number) (prev : list Car) : list Car :=
  imap (fun i c => withSpeed c (Num.floor (random i * Fin 100) + Fin 40)%num) prev.

(** The aliasing warning is shown when
    [fastestCar && fastestCar.speedKmh > maxSpeedKmh]. *)
Definition aliasingWarning (radarParams : RadarParams) (cars : list Car) : bool :=
  match fastestCar cars with
  | Some car => (speedKmh car >? maxSpeedKmh radarParams)%num
  | None => false
  end.

(** The [max] of the speed sliders, [maxSpeedKmh > 250 ? 250 : maxSpeedKmh - 10]. *)
Definition speedSliderMax (radarParams : RadarParams) : number :=
  if (maxSpeedKmh radarParams >? Fin 250)%num then Fin 250
  else (maxSpeedKmh radarParams - Fin 10)%num.

(** The measured speed is shown in red when
    [measuredSpeedKmh > SPEED_LIMIT_KMH]. *)
Definition overSpeedLimit (radarParams : RadarParams) (cars : list Car) : bool :=
  (measuredSpeedKmh (measure radarParams cars) >? SPEED_LIMIT_KMH)%num.

(** ** The [HighwayScene] component: the positions of the cars

    [carPositionsRef] is a [Map] from the [id] of a car to its [x].  A
    [Map] keeps its keys in the order of their insertion and compares them
    by SameValueZero.  The drawing on the canvas is left out: it reads the
    positions and writes none. *)

Definition PositionMap : Type := list (number * number).

Fixpoint mapGet (m : PositionMap) (key : number) : option number :=
  match m with
  | [] => None
  | (k, v) :: m' => if Num.same_value_zero k key then Some v else mapGet m' key
  end.

Definition mapHas (m : PositionMap) (key : number) : bool :=
  match mapGet m key with Some _ => true | None => false end.

Fixpoint mapSet (m : PositionMap) (key value : number) : PositionMap :=
  match m with
  | [] => [(key, value)]
  | (k, v) :: m' =>
      if Num.same_value_zero k key then (k, value) :: m'
      else (k, v) :: mapSet m' key value
  end.

(** The first effect:
    [cars.forEach(car => { if (!map.has(car.id)) map.set(car.id,
       Math.random() * 800) })].
    [next] counts the calls of [Math.random()] made so far. *)
Fixpoint initPositions (random : nat → number) (next : nat) (cars : list Car)
    (positions : PositionMap) : PositionMap * nat :=
  match cars with
  | [] => (positions, next)
  | car :: cars' =>
      if mapHas positions (id car)
      then initPositions random next cars' positions
      else initPositions random (S next) cars'
             (mapSet positions (id car) (random next * Fin 800)%num)
  end.

(** The position of one car in one frame of [render]:
    [let currentX = map.get(car.id) ?? car.x;
     currentX += car.speedKmh * 0.03;
     if (currentX > canvas.width + 100) currentX = -100;
     map.set(car.id, currentX)]. *)
Definition advanceCar (canvasWidth : number) (positions : PositionMap) (car : Car)
    : PositionMap :=
  let currentX :=
    match mapGet positions (id car) with Some v => v | None => x car end in
  let pixelsPerFrame := (speedKmh car * Fin 0.03)%num in
  let currentX := (currentX + pixelsPerFrame)%num in
  let currentX :=
    if (currentX >? canvasWidth + Fin 100)%num then Fin (-100) else currentX in
  mapSet positions (id car) currentX.

(** The positions after one frame: [cars.forEach] of the above. *)
Definition renderFrame (canvasWidth : number) (cars : list Car)
    (positions : PositionMap) : PositionMap :=
  fold_left (advanceCar canvasWidth) cars positions.

(** ** Vocabulary of the statements *)

(** The public interface asks for a positive carrier frequency, a positive
    sample rate and a positive FFT size, all of them finite. *)
Inductive ValidConfig : RadarParams → Prop :=
  | valid_config (f fs n : Q) (ifMHz adcMHz : number) :
      0 < f → 0 < fs → 0 < n →
      ValidConfig (mkRadarParams (Fin f) ifMHz adcMHz (Fin fs) (Fin n)).

(** No speed is [NaN]: speeds come from [parseInt] and are filtered by
    [!isNaN]. *)
Definition speeds_defined (cars : list Car) : Prop :=
  Forall (fun c => Num.is_nan (speedKmh c) = false) cars.

(** Every speed is a finite number. *)
Definition speeds_finite (cars : list Car) : Prop :=
  Forall (fun c => Num.is_finite (speedKmh c) = true) cars.

(** [c] stands at index [i] of [cars], no car is faster, and every car
    after it is strictly slower: [c] is the last of the fastest cars. *)
Definition last_fastest_at (cars : list Car) (i : nat) (c : Car) : Prop :=
  cars !! i = Some c ∧
  (∀ j d, cars !! j = Some d → (speedKmh d >? speedKmh c)%num = false) ∧
  (∀ j d, (i < j)%nat → cars !! j = Some d →
          (speedKmh c >? speedKmh d)%num = true).

(** [c] stands at index [i] of [cars], no car is faster, and every car
    before it is strictly slower: [c] is the first of the fastest cars. *)
Definition first_fastest_at (cars : list Car) (i : nat) (c : Car) : Prop :=
  cars !! i = Some c ∧
  (∀ j d, cars !! j = Some d → (speedKmh d >? speedKmh c)%num = false) ∧
  (∀ j d, (j < i)%nat → cars !! j = Some d →
          (speedKmh c >? speedKmh d)%num = true).

(** Fuel enough for the starting frequency [e]. *)
Definition wrapFuel (fs e : Q) : nat := Z.to_nat (Qceiling (e / fs)).

(** What the amplitude updates leave alone: index, frequency and speed
    of a bin. *)
Definition grid (d : SpectrumBin) : number * number * number :=
  (binIndex d, freq d, speed d).

(** The bins before any amplitude is added: [new Array(numBins).fill(0)
    .map(...)]. *)
Definition initialBin (radar : RadarParams) (random : nat → number) (i : nat)
    : SpectrumBin :=
  let freqRes := (basebandSampleRateHz radar / fftSize radar)%num in
  mkSpectrumBin (Num.of_nat i) (Num.of_nat i * freqRes)%num
    (calculateSpeedFromShift (Num.of_nat i * freqRes)%num (frequencyGHz radar))
    (Fin 2 + random i * Fin 2)%num.

(** The cutoff of the display filter, [Math.max(200, maxSpeed * 0.8)]. *)
Definition visualCutoffSpeed (sim : SimulationState) : number :=
  Num.max (Fin 200) (maxSpeed sim * Fin 0.8)%num.

(** The scalars the engine reports: the derived metrics and the fields of
    the measurement. *)
Definition reportedScalars (radarParams : RadarParams) (cars : list Car)
    : list number :=
  let m := measure radarParams cars in
  [resolutionKmh radarParams; maxSpeedKmh radarParams; wavelengthMm radarParams;
   observationTimeMs radarParams;
   realTargetSpeed m; realDopplerShift m; measuredShiftHz m;
   measuredSpeedKmh m; errorKmh m].

(** What a peak at bin [b] adds to bin [i]: the main lobe at [b], the
    leakage at its two neighbours. *)
Definition lobe (peak : option Z) (i : nat) : Q :=
  match peak with
  | Some b =>
      if (Z.of_nat i =? b)%Z then 100
      else if ((Z.of_nat i =? b - 1) || (Z.of_nat i =? b + 1))%Z then 30
      else 0
  | None => 0
  end.

Definition lobes (peaks : list (option Z)) (i : nat) : Q :=
  fold_right (fun peak total => lobe peak i + total) 0 peaks.

(** What the static clutter adds to bin [i]. *)
Definition clutter (i : nat) : Q :=
  match i with
  | O => 150
  | S O => 50
  | _ => 0
  end.

(** The peak of a car in the spectrum: none for a car that does not move
    or whose bin the guard rejects, otherwise the bin [targetBin] returns. *)
Definition carPeak (radar : RadarParams) (car : Car) (peak : option Z) : Prop :=
  if (speedKmh car >? Fin 0)%num then
    ∃ (fuel : nat) (b : Z),
      targetBin fuel radar (basebandSampleRateHz radar / fftSize radar)%num car
      = Ok (Num.of_Z b) ∧
      peak = if binInRange (Num.of_Z b) (fftSize radar / Fin 2)%num
             then Some b else None
  else peak = None.

(** The amplitudes of an array are the numbers [a 0], [a 1], ... *)
Definition amps (data : list SpectrumBin) (a : nat → Q) : Prop :=
  ∀ i d, data !! i = Some d → amp d ≡ Fin (a i).

(** The cars stand in the order of their creation: the car of index [i]
    has the [id] [i], the lane [i % 3] and the colour [CAR_COLORS[i % 7]]. *)
Definition indexed (cars : list Car) : Prop :=
  ∀ i c, cars !! i = Some c →
    id c ≡ Num.of_nat i ∧ lane c ≡ Num.of_nat (i mod 3) ∧
    CAR_COLORS !! (i mod 7)%nat = Some (color c).

(** What the user can do to the cars: each handler passes a function to
    [setCars]. *)
Inductive Action : Type :=
  | UpdateCarSpeed (targetId newSpeed : number)
  | AddCar
  | RemoveCar
  | RandomizeSpeeds (random : nat → number).

Definition handle (action : Action) (prev : list Car) : option (list Car) :=
  match action with
  | UpdateCarSpeed targetId newSpeed => Some (updateCarSpeed targetId newSpeed prev)
  | AddCar => addCar prev
  | RemoveCar => Some (removeCar prev)
  | RandomizeSpeeds random => Some (randomizeSpeeds random prev)
  end.

(** The states of the cars that [App] can be in, started from the speeds
    [speeds]. *)
Inductive Reachable (random : nat → number) (speeds : list number)
    : list Car → Prop :=
  | reach_initial (cars : list Car) :
      initialCars random speeds = Some cars → Reachable random speeds cars
  | reach_handle (action : Action) (cars cars' : list Car) :
      Reachable random speeds cars → handle action cars = Some cars' →
      Reachable random speeds cars'.

(** Where a car at [currentX] is after one frame: [advanceCar] without
    the [Map]. *)
Definition nextX (canvasWidth currentX : number) (car : Car) : number :=
  let moved := (currentX + speedKmh car * Fin 0.03)%num in
  if (moved >? canvasWidth + Fin 100)%num then Fin (-100) else moved.

(** No position of the map is beyond [canvasWidth + 100]. *)
Definition positionsBounded (canvasWidth : number) (positions : PositionMap) : Prop :=
  ∀ key v, mapGet positions key = Some v →
    (v >? canvasWidth + Fin 100)%num = false.

(** ** Inputs used in the examples *)

(** The configuration [App] starts from. *)
Definition defaultRadar : RadarParams :=
  mkRadarParams (Fin 24.15) (Fin 30) (Fin 100) (Fin 44100) (Fin 512).

Definition radarWith (frequencyGHz basebandSampleRateHz fftSize : number)
    : RadarParams :=
  mkRadarParams frequencyGHz (Fin 30) (Fin 100) basebandSampleRateHz fftSize.

(** A car of the given [id] and speed. *)
Definition carAt (i : Z) (v : Q) : Car :=
  mkCar (Num.of_Z i) (Fin 0) (Num.of_Z (i mod 3)) "#ef4444" (Fin v).

Definition noNoise : nat → number := fun _ => Fin 0.

(** Two cars at the same speed, told apart by their [id]. *)
Definition tiedCars : list Car := [carAt 0 80; carAt 1 80].

(** The measurement of a single car at 80 km/h under the default
    configuration (24.15 GHz, 44100 Hz, 512 points). *)
Definition scenario80 : Measurement := measure defaultRadar [carAt 0 80].

(** The bin the true shift is rounded to, [Math.round(shift / freqRes)]. *)
Definition quantisedBin (m : Measurement) : number :=
  Num.round (realDopplerShift m / freqResolutionHz m)%num.

(** The state [App] starts from: the default configuration and three cars
    at 80, 110 and 60 km/h. *)
Definition defaultSim : SimulationState :=
  simState defaultRadar [carAt 0 80; carAt 1 110; carAt 2 60].

(** Spectra of 4, 2 and 3 points, one car at 80 km/h. *)
Definition simOfSize (n : Q) : SimulationState :=
  simState (radarWith (Fin 24.15) (Fin 44100) (Fin n)) [carAt 0 80].

(** A spectrum of 16 points, cars at 80 and at 90 km/h: both in bin 1. *)
Definition twoCarsSim : SimulationState :=
  simState (radarWith (Fin 24.15) (Fin 44100) (Fin 16)) [carAt 0 80; carAt 1 90].

(** The cars [App] starts with, at 80, 110 and 60 km/h. *)
Definition threeCars : list Car :=
  [mkCar (Fin 0) (Fin 0) (Fin 0) "#ef4444" (Fin 80);
   mkCar (Fin 1) (Fin 0) (Fin 1) "#3b82f6" (Fin 110);
   mkCar (Fin 2) (Fin 0) (Fin 2) "#22c55e" (Fin 60)].

(** * Properties *)

(** ** Numbers *)

Section NumFacts.

Lemma eqv_refl (a : number) : a ≡ a.
Proof. destruct a; cbv [equiv number_equiv Num.eqv]; auto with qarith. Qed.

Lemma eqv_sym (a b : number) : a ≡ b → b ≡ a.
Proof. destruct a, b; cbv [equiv number_equiv Num.eqv]; auto with qarith. Qed.

Lemma eqv_trans (a b c : number) : a ≡ b → b ≡ c → a ≡ c.
Proof.
  destruct a, b, c; cbv [equiv number_equiv Num.eqv]; try tauto.
  apply Qeq_trans.
Qed.

#[global] Instance eqv_equivalence : Equivalence (≡@{number}).
Proof.
  split; [exact eqv_refl | exact eqv_sym | exact eqv_trans].
Qed.

Lemma is_zero_false (q : Q) : ¬ q == 0 → Num.is_zero q = false.
Proof.
  intros Hq. unfold Num.is_zero, Num.sgn.
  destruct (q ?= 0) eqn:E; auto.
  apply Qeq_alt in E. contradiction.
Qed.

Lemma is_zero_true (q : Q) : q == 0 → Num.is_zero q = true.
Proof.
  intros Hq. unfold Num.is_zero, Num.sgn.
  apply Qeq_alt in Hq. now rewrite Hq.
Qed.

Lemma div_fin (a b : Q) : ¬ b == 0 → (Fin a / Fin b)%num = Fin (a / b).
Proof. intros Hb. simpl. now rewrite is_zero_false. Qed.

Lemma div_zero_pos (a b : Q) : 0 < a → b == 0 → (Fin a / Fin b)%num = PInf.
Proof.
  intros Ha Hb. simpl. rewrite is_zero_true by assumption.
  unfold Num.sgn. apply Qgt_alt in Ha. now rewrite Ha.
Qed.

Lemma lt_fin (a b : Q) : (Fin a <? Fin b)%num = true ↔ a < b.
Proof.
  simpl. rewrite Qlt_alt. destruct (a ?= b); split; congruence.
Qed.

Lemma lt_fin_false (a b : Q) : (Fin a <? Fin b)%num = false ↔ b <= a.
Proof.
  rewrite <- not_true_iff_false, lt_fin. split; intros H.
  - now apply Qnot_lt_le.
  - now apply Qle_not_lt.
Qed.

Lemma gt_fin (a b : Q) : (Fin a >? Fin b)%num = true ↔ b < a.
Proof. unfold Num.gt. apply lt_fin. Qed.

Lemma gt_fin_false (a b : Q) : (Fin a >? Fin b)%num = false ↔ a <= b.
Proof. unfold Num.gt. apply lt_fin_false. Qed.

Lemma ge_fin (a b : Q) : (Fin a >=? Fin b)%num = true ↔ b <= a.
Proof.
  simpl. rewrite Qle_alt. unfold Qcompare.
  rewrite (Z.compare_antisym (Qnum a * QDen b) (Qnum b * QDen a)).
  destruct (Qnum a * QDen b ?= Qnum b * QDen a)%Z; simpl; split; congruence.
Qed.

End NumFacts.

(** ** Physics on finite numbers *)

Lemma calculateDopplerShift0_fin (v f : Q) :
  calculateDopplerShift0 (Fin v) (Fin f)
  = Fin (2 * (v / 3.6) * (f * 1000000000) * 1 / 299792458).
Proof. reflexivity. Qed.

Lemma calculateSpeedFromShift_fin (s f : Q) :
  ¬ f == 0 →
  calculateSpeedFromShift (Fin s) (Fin f)
  = Fin (s * 299792458 / (2 * (f * 1000000000)) * 3.6).
Proof.
  intros Hf. unfold calculateSpeedFromShift, C. cbn [Num.mul].
  rewrite div_fin; [reflexivity|].
  intros H. apply Hf. lra.
Qed.

Lemma calculateFreqResolution_fin (fs n : Q) :
  ¬ n == 0 → calculateFreqResolution (Fin fs) (Fin n) = Fin (fs / n).
Proof. intros Hn. unfold calculateFreqResolution. now apply div_fin. Qed.

(** [C6] The inverse Doppler formula followed by the forward one (at
    [thetaDegrees = 0]) gives the shift back: for every finite [shiftHz]
    and every [frequencyGHz > 0],
    [calculateDopplerShift(calculateSpeedFromShift(shiftHz, f), f)] is
    [shiftHz], exactly, over exact arithmetic. *)
Theorem doppler_roundtrip (shiftHz f : Q) :
  0 < f →
  calculateDopplerShift0 (calculateSpeedFromShift (Fin shiftHz) (Fin f)) (Fin f)
  ≡ Fin shiftHz.
Proof.
  intros Hf.
  rewrite calculateSpeedFromShift_fin by lra.
  rewrite calculateDopplerShift0_fin.
  change (2 * (shiftHz * 299792458 / (2 * (f * 1000000000)) * 3.6 / 3.6)
            * (f * 1000000000) * 1 / 299792458 == shiftHz).
  field. lra.
Qed.

Lemma doppler_roundtrip_witness :
  0 < 24.15 ∧
  calculateDopplerShift0 (calculateSpeedFromShift (Fin 3500) (Fin 24.15)) (Fin 24.15)
  ≡ Fin 3500.
Proof. split; [reflexivity | apply (doppler_roundtrip 3500 24.15); reflexivity]. Defined.

Lemma calculateSpeedResolution_fin (fs n f : Q) :
  ¬ n == 0 → ¬ f == 0 →
  calculateSpeedResolution (Fin fs) (Fin n) (Fin f)
  = Fin (fs / n * 299792458 / (2 * (f * 1000000000)) * 3.6).
Proof.
  intros Hn Hf. unfold calculateSpeedResolution.
  rewrite calculateFreqResolution_fin by assumption.
  now apply calculateSpeedFromShift_fin.
Qed.



(** ** Valid configurations *)

Lemma defaultRadar_valid : ValidConfig defaultRadar.
Proof. apply valid_config; reflexivity. Qed.

Lemma Qdiv_pos (a b : Q) : 0 < a → 0 < b → 0 < a / b.
Proof. intros Ha Hb. apply Qlt_shift_div_l; lra. Qed.

Lemma Qdiv_nonzero (a b : Q) : 0 < a → 0 < b → ¬ a / b == 0.
Proof. intros Ha Hb H. pose proof (Qdiv_pos a b Ha Hb). lra. Qed.

(** The measurement of a finite target speed [v] under a valid
    configuration, field by field. *)
Lemma measure_fields (f fs n v : Q) (ifMHz adcMHz : number) (cars : list Car) :
  0 < f → 0 < fs → 0 < n →
  match fastestCar cars with Some car => speedKmh car | None => Fin 0 end = Fin v →
  let shift := 2 * (v / 3.6) * (f * 1000000000) * 1 / 299792458 in
  let quantised := inject_Z (Qfloor (shift / (fs / n) + (1 # 2))) * (fs / n) in
  let measured := quantised * 299792458 / (2 * (f * 1000000000)) * 3.6 in
  measure (mkRadarParams (Fin f) ifMHz adcMHz (Fin fs) (Fin n)) cars
  = mkMeasurement (Fin v) (Fin shift) (Fin (fs / n)) (Fin quantised)
      (Fin measured) (Fin (measured - v)).
Proof.
  intros Hf Hfs Hn Hv. unfold measure. rewrite Hv.
  cbn [frequencyGHz basebandSampleRateHz fftSize].
  rewrite calculateDopplerShift0_fin.
  rewrite (div_fin fs n) by lra.
  rewrite div_fin by now apply Qdiv_nonzero.
  cbn [Num.round Num.mul].
  rewrite calculateSpeedFromShift_fin by lra.
  reflexivity.
Qed.



(** ** The 80 km/h scenario *)

(** [C5], as stated, fails: the Doppler shift of 80 km/h at 24.15 GHz is
    more than 1 Hz away from 3573.6 Hz, and it is not rounded to bin 41. *)
Lemma scenario80_not_3573_bin_41 :
  ¬ (∃ d, realDopplerShift scenario80 ≡ Fin d ∧ Qabs (d - 3573.6) <= 1) ∧
  ¬ quantisedBin scenario80 ≡ Fin 41.
Proof.
  split.
  - intros [d [Hd Hclose]].
    change (3864000000000000 # 1079252848800 == d) in Hd.
    apply Qabs_Qle_condition in Hclose. destruct Hclose as [_ Hup].
    rewrite <- Hd in Hup. vm_compute in Hup. now apply Hup.
  - vm_compute. discriminate.
Qed.

(** [C5], amended: in that scenario the Doppler shift is 3580.25 Hz to
    within 0.01 Hz, the frequency resolution is 86.1328125 Hz, the exact
    bin lies between 41.56 and 41.57 and is rounded to 42, the measured
    shift is 42 bins, and the speed recovered from it is 80.83 km/h to
    within 0.01 km/h: an error between 0.83 and 0.84 km/h, not zero. *)
Theorem scenario80_values :
  (∃ d, realDopplerShift scenario80 = Fin d ∧ 3580.25 < d < 3580.26) ∧
  freqResolutionHz scenario80 ≡ Fin 86.1328125 ∧
  (∃ b, (realDopplerShift scenario80 / freqResolutionHz scenario80)%num = Fin b ∧
        41.56 < b < 41.57) ∧
  quantisedBin scenario80 ≡ Fin 42 ∧
  measuredShiftHz scenario80 ≡ (Fin 42 * Fin 86.1328125)%num ∧
  (∃ s, measuredSpeedKmh scenario80 = Fin s ∧ 80.83 < s < 80.84) ∧
  (∃ e, errorKmh scenario80 = Fin e ∧ 0.83 < e < 0.84).
Proof.
  repeat split; try (eexists; split; [vm_compute; reflexivity|]);
    vm_compute; repeat split; reflexivity.
Qed.

(** ** The fastest car *)

Section FastestCar.

Implicit Types (c d first : Car) (others cars : list Car).

(** [a <= b] as the reduction sees it: [a > b] is false. *)
Lemma not_gt_trans (a b c : number) :
  Num.is_nan b = false →
  (a >? b)%num = false → (b >? c)%num = false → (a >? c)%num = false.
Proof.
  destruct a as [x| | |], b as [y| | |], c as [z| | |];
    cbn [Num.is_nan]; try discriminate; try reflexivity; intros _;
    rewrite ?gt_fin_false; try (cbn; discriminate).
  intros; lra.
Qed.

Lemma gt_not_gt_trans (a b c : number) :
  Num.is_nan c = false →
  (a >? b)%num = true → (a >? c)%num = false → (c >? b)%num = true.
Proof.
  destruct a as [x| | |], b as [y| | |], c as [z| | |];
    cbn [Num.is_nan]; try discriminate; try reflexivity; intros _;
    rewrite ?gt_fin, ?gt_fin_false; try (cbn; discriminate).
  intros; lra.
Qed.

Lemma gt_asym (a b : number) : (a >? b)%num = true → (b >? a)%num = false.
Proof.
  destruct a as [x| | |], b as [y| | |];
    try (cbn; discriminate); try reflexivity.
  rewrite gt_fin, gt_fin_false. intros; lra.
Qed.

Lemma not_gt_refl (a : number) : (a >? a)%num = false.
Proof.
  destruct a as [x| | |]; try reflexivity. apply gt_fin_false. lra.
Qed.

Lemma reduce_faster_last (others : list Car) :
  ∀ first, speeds_defined (first :: others) →
  ∃ i, last_fastest_at (first :: others) i (fold_left faster others first).
Proof.
  induction others as [|o rest IH]; intros first Hdef.
  - exists 0%nat. split; [reflexivity|]. split.
    + intros [|j] d Hd; [|discriminate]. injection Hd as <-.
      apply not_gt_refl.
    + intros [|j] d Hj Hd; [lia|discriminate].
  - cbn [fold_left].
    apply Forall_cons in Hdef as [Hfirst Hdef].
    pose proof Hdef as Hdef'. apply Forall_cons in Hdef' as [Ho Hrest].
    assert (Hnext : speeds_defined (faster first o :: rest)).
    { apply Forall_cons. split; [|assumption].
      unfold faster. now destruct (speedKmh first >? speedKmh o)%num. }
    destruct (IH (faster first o) Hnext) as [i [Hi [Hmax Hlast]]].
    set (c := fold_left faster rest (faster first o)) in *.
    assert (Hc : Num.is_nan (speedKmh c) = false).
    { unfold speeds_defined in Hnext. rewrite Forall_lookup in Hnext.
      exact (Hnext i c Hi). }
    pose proof (Hmax 0%nat (faster first o) eq_refl) as Hhead.
    unfold faster in Hi, Hhead, Hmax, Hlast.
    destruct (speedKmh first >? speedKmh o)%num eqn:Hcmp.
    + (* the accumulator stays [first]: [o] is strictly slower *)
      assert (Ho_c : (speedKmh c >? speedKmh o)%num = true)
        by (eapply gt_not_gt_trans; eassumption).
      exists (match i with O => O | S i' => S (S i') end).
      split; [destruct i; exact Hi|]. split.
      * intros [|[|j]] d Hd.
        -- injection Hd as <-. exact Hhead.
        -- injection Hd as <-. now apply gt_asym.
        -- apply (Hmax (S j) d Hd).
      * intros [|[|j]] d Hj Hd.
        -- destruct i; lia.
        -- injection Hd as <-. exact Ho_c.
        -- apply (Hlast (S j) d); [destruct i; lia|exact Hd].
    + (* the accumulator becomes [o] *)
      assert (Hfirst_c : (speedKmh first >? speedKmh c)%num = false)
        by (apply not_gt_trans with (b := speedKmh o); assumption).
      exists (S i). split; [exact Hi|]. split.
      * intros [|j] d Hd.
        -- injection Hd as <-. exact Hfirst_c.
        -- apply (Hmax j d Hd).
      * intros [|j] d Hj Hd; [lia|].
        apply (Hlast j d); [lia|exact Hd].
Qed.

End FastestCar.

(** [C1], as stated, fails on a tie: of two cars at 80 km/h the reduction
    returns the second, so the car it selects is not the first of the
    fastest cars. *)
Lemma fastest_car_tie_not_first :
  fastestCar tiedCars = Some (carAt 1 80) ∧
  ¬ (∃ c i, fastestCar tiedCars = Some c ∧ first_fastest_at tiedCars i c).
Proof.
  split; [reflexivity|].
  intros (c & i & Hc & Hi & _ & Hbefore).
  injection Hc as <-.
  destruct i as [|[|i]].
  - discriminate Hi.
  - specialize (Hbefore 0%nat (carAt 0 80) (Nat.lt_0_succ 0) eq_refl).
    discriminate Hbefore.
  - discriminate Hi.
Qed.

(** [C1], amended: for every non-empty list of cars whose speeds are not
    [NaN], the car selected has the maximum speed, and when several cars
    share that speed it is the one occurring last in the list; the true
    speed, the true Doppler shift, the measured shift and the measured
    speed are all computed from that car. *)
Theorem fastest_car_is_last_maximum (radarParams : RadarParams) (cars : list Car) :
  cars ≠ [] → speeds_defined cars →
  ∃ c i, fastestCar cars = Some c ∧ last_fastest_at cars i c ∧
    let m := measure radarParams cars in
    let shift := calculateDopplerShift0 (speedKmh c) (frequencyGHz radarParams) in
    let freqRes := (basebandSampleRateHz radarParams / fftSize radarParams)%num in
    realTargetSpeed m = speedKmh c ∧
    realDopplerShift m = shift ∧
    measuredShiftHz m = (Num.round (shift / freqRes) * freqRes)%num ∧
    measuredSpeedKmh m =
      calculateSpeedFromShift (Num.round (shift / freqRes) * freqRes)%num
        (frequencyGHz radarParams).
Proof.
  intros Hne Hdef. destruct cars as [|first others]; [congruence|].
  destruct (reduce_faster_last others first Hdef) as [i Hi].
  exists (fold_left faster others first), i.
  split; [reflexivity|]. split; [exact Hi|].
  unfold measure. cbn [fastestCar]. repeat split.
Qed.

Lemma fastest_car_is_last_maximum_witness :
  ∃ c i, fastestCar tiedCars = Some c ∧ last_fastest_at tiedCars i c ∧
    let m := measure defaultRadar tiedCars in
    let shift := calculateDopplerShift0 (speedKmh c) (frequencyGHz defaultRadar) in
    let freqRes := (basebandSampleRateHz defaultRadar / fftSize defaultRadar)%num in
    realTargetSpeed m = speedKmh c ∧
    realDopplerShift m = shift ∧
    measuredShiftHz m = (Num.round (shift / freqRes) * freqRes)%num ∧
    measuredSpeedKmh m =
      calculateSpeedFromShift (Num.round (shift / freqRes) * freqRes)%num
        (frequencyGHz defaultRadar).
Proof.
  apply (fastest_car_is_last_maximum defaultRadar tiedCars).
  - discriminate.
  - repeat constructor.
Defined.

(** ** The aliasing loop *)

(** Linear arithmetic reads [q / 2] as an unknown; [q * (1 # 2)] it reads. *)
Ltac half_as_product :=
  unfold Qdiv in *; change (/ 2) with (1 # 2) in *.

Section AliasWrap.

Variable fs : Q.
Hypothesis fs_pos : 0 < fs.

Lemma half_rate : (Fin fs / Fin 2)%num = Fin (fs / 2).
Proof. reflexivity. Qed.

(** One more unit of fuel never changes a result. *)
Lemma aliasWrap_fuel_mono (maxFreq rate : number) (n m : nat) :
  (n <= m)%nat → ∀ e r,
  aliasWrap n maxFreq rate e = Ok r → aliasWrap m maxFreq rate e = Ok r.
Proof.
  intros Hnm. revert m Hnm.
  induction n as [|n IH]; intros m Hnm e r H.
  - destruct m; cbn [aliasWrap] in *;
      destruct (e >? maxFreq)%num; congruence.
  - destruct m as [|m]; [lia|]. cbn [aliasWrap] in *.
    destruct (e >? maxFreq)%num; [|exact H].
    apply IH; [lia|exact H].
Qed.

(** A frequency below [n] sample rates plus the Nyquist frequency is
    folded into the band in at most [n] iterations. *)
Lemma aliasWrap_within (n : nat) :
  ∀ e, 0 <= e → e < fs * inject_Z (Z.of_nat n) + fs / 2 →
  ∃ r, aliasWrap n (Fin (fs / 2)) (Fin fs) (Fin e) = Ok (Fin r) ∧
       0 <= r ∧ r <= fs / 2.
Proof.
  induction n as [|n IH]; intros e He Hbound; cbn [aliasWrap].
  - destruct (Fin e >? Fin (fs / 2))%num eqn:Hcmp.
    + apply gt_fin in Hcmp. change (inject_Z (Z.of_nat 0)) with 0 in Hbound. lra.
    + apply gt_fin_false in Hcmp. exists e. auto.
  - destruct (Fin e >? Fin (fs / 2))%num eqn:Hcmp.
    + apply gt_fin in Hcmp. cbn [Num.sub Num.abs].
      apply IH; [apply Qabs_nonneg|].
      rewrite Nat2Z.inj_succ, <- Z.add_1_r, inject_Z_plus in Hbound.
      change (inject_Z 1) with 1 in Hbound.
      assert (Hk : 0 <= inject_Z (Z.of_nat n)).
      { change 0 with (inject_Z 0). rewrite <- Zle_Qle. lia. }
      assert (Ht : 0 <= fs * inject_Z (Z.of_nat n))
        by (apply Qmult_le_0_compat; lra).
      assert (Hb : e < fs * inject_Z (Z.of_nat n) + fs + fs / 2).
      { eapply Qlt_le_trans; [exact Hbound|]. apply Qle_lteq. right. ring. }
      clear Hbound IH. revert Ht Hb.
      generalize (fs * inject_Z (Z.of_nat n)). intros t Ht Hb.
      half_as_product.
      destruct (Qlt_le_dec e fs) as [Hlt|Hge].
      * rewrite Qabs_neg by lra. lra.
      * rewrite Qabs_pos by lra. lra.
    + apply gt_fin_false in Hcmp. exists e. auto.
Qed.

Lemma wrapFuel_enough (e : Q) :
  0 <= e → e < fs * inject_Z (Z.of_nat (wrapFuel fs e)) + fs / 2.
Proof.
  intros He. unfold wrapFuel.
  assert (Hq : 0 <= e / fs) by (apply Qle_shift_div_l; lra).
  assert (Hc : (0 <= Qceiling (e / fs))%Z).
  { change 0%Z with (Qceiling 0). now apply Qceiling_resp_le. }
  rewrite Z2Nat.id by assumption.
  pose proof (Qle_ceiling (e / fs)) as Hle.
  assert (e <= fs * inject_Z (Qceiling (e / fs))).
  { apply Qle_trans with (fs * (e / fs)).
    - apply Qle_lteq. right. field. lra.
    - apply Qmult_le_l; assumption. }
  assert (0 < fs / 2) by (apply Qdiv_pos; [assumption|reflexivity]).
  eapply Qle_lt_trans; [eassumption|].
  rewrite <- (Qplus_0_r (fs * _)) at 1. apply Qplus_lt_r. assumption.
Qed.

Lemma aliasWrap_enough (e : Q) (fuel : nat) :
  0 <= e → (wrapFuel fs e <= fuel)%nat →
  ∃ r, aliasWrap fuel (Fin fs / Fin 2)%num (Fin fs) (Fin e) = Ok (Fin r) ∧
       0 <= r ∧ r <= fs / 2.
Proof.
  intros He Hfuel. rewrite half_rate.
  destruct (aliasWrap_within (wrapFuel fs e) e He (wrapFuel_enough e He))
    as (r & Hr & Hbounds).
  exists r. split; [|exact Hbounds].
  eapply aliasWrap_fuel_mono; eassumption.
Qed.

End AliasWrap.



(** ** The bin of a target *)

Lemma Zle_of_Qle_half (b k : Z) : inject_Z b <= inject_Z k + (1 # 2) → (b <= k)%Z.
Proof.
  intros H. apply Z.lt_succ_r. rewrite Zlt_Qlt.
  unfold Z.succ. rewrite inject_Z_plus. change (inject_Z 1) with 1. lra.
Qed.

Lemma number_half (n : Q) : (Fin n / Fin 2)%num = Fin (n / 2).
Proof. reflexivity. Qed.

(** The exact bin of a frequency of the band is at most [fftSize / 2]. *)
Lemma exactBin_bounds (fs n r : Q) :
  0 < fs → 0 < n → 0 <= r → r <= fs / 2 →
  0 <= r / (fs / n) ∧ r / (fs / n) <= n / 2.
Proof.
  intros Hfs Hn Hr0 Hr. pose proof (Qdiv_pos fs n Hfs Hn) as Hres. split.
  - apply Qle_shift_div_l; lra.
  - apply Qle_shift_div_r; [assumption|].
    assert (E : n / 2 * (fs / n) == fs / 2) by (field; lra).
    now rewrite E.
Qed.

(** The bin of a car of finite speed under a valid configuration: the
    loop ends, and the index is an integer from [0] to
    [fftSize/2 + 1/2]. *)
Lemma targetBin_finite (f fs n v : Q) (ifMHz adcMHz : number) (car : Car) :
  0 < f → 0 < fs → 0 < n → speedKmh car = Fin v →
  ∃ (fuel0 : nat) (b : Z),
    (∀ fuel, (fuel0 <= fuel)%nat →
       targetBin fuel (mkRadarParams (Fin f) ifMHz adcMHz (Fin fs) (Fin n))
         (Fin fs / Fin n)%num car = Ok (Num.of_Z b)) ∧
    (0 <= b)%Z ∧ inject_Z b <= n / 2 + (1 # 2).
Proof.
  intros Hf Hfs Hn Hv.
  set (shift := 2 * (v / 3.6) * (f * 1000000000) * 1 / 299792458).
  destruct (aliasWrap_enough fs Hfs (Qabs shift) (wrapFuel fs (Qabs shift))
              (Qabs_nonneg shift) (Nat.le_refl _)) as (r & Hr & Hr0 & Hr2).
  destruct (exactBin_bounds fs n r Hfs Hn Hr0 Hr2) as [Hx0 Hx2].
  set (x := r / (fs / n)) in *.
  exists (wrapFuel fs (Qabs shift)), (Qfloor (x + (1 # 2))).
  split; [|split].
  - intros fuel Hfuel. unfold targetBin.
    cbn [basebandSampleRateHz fftSize frequencyGHz]. rewrite Hv.
    rewrite calculateDopplerShift0_fin. cbn [Num.abs]. fold shift.
    rewrite (aliasWrap_fuel_mono _ _ _ fuel Hfuel _ _ Hr).
    cbn [mbind result_bind]. rewrite (div_fin fs n) by lra.
    rewrite div_fin by now apply Qdiv_nonzero.
    reflexivity.
  - change 0%Z with (Qfloor 0). apply Qfloor_resp_le. lra.
  - pose proof (Qfloor_le (x + (1 # 2))). lra.
Qed.

(** With [fftSize = 2k], an index up to [k + 1/2] is at most [k], and the
    guard accepts it exactly below [k]. *)
Lemma binInRange_even (n : Q) (b k : Z) :
  n == inject_Z (2 * k) → (0 <= b)%Z → inject_Z b <= n / 2 + (1 # 2) →
  (b <= k)%Z ∧
  (binInRange (Num.of_Z b) (Fin n / Fin 2)%num = true ↔ (b < k)%Z).
Proof.
  intros Hk Hb0 Hb.
  assert (Hhalf : n / 2 == inject_Z k).
  { rewrite Hk, inject_Z_mult. change (inject_Z 2) with 2. field. }
  split.
  - apply Zle_of_Qle_half. lra.
  - rewrite number_half. unfold binInRange, Num.of_Z.
    rewrite andb_true_iff, ge_fin, lt_fin, Hhalf, <- Zlt_Qlt.
    change 0 with (inject_Z 0). rewrite <- Zle_Qle. tauto.
Qed.




(** ** The bin array *)

Section BinArray.

Implicit Types (data : list SpectrumBin) (k delta : number).

Lemma array_index_integer (q : Q) (b : Z) :
  q == inject_Z b → (0 <= b)%Z → array_index (Fin q) = Some (Z.to_nat b).
Proof.
  intros Hq Hb. unfold array_index, is_integer.
  rewrite (Qfloor_comp q (inject_Z b) Hq), Qfloor_Z.
  rewrite (Qeq_eq_bool _ _ (Qeq_sym _ _ Hq)).
  apply Z.leb_le in Hb. now rewrite Hb.
Qed.

Lemma array_index_Some k (i : nat) :
  array_index k = Some i → ∃ q, k = Fin q ∧ q == inject_Z (Z.of_nat i).
Proof.
  destruct k as [q| | |]; try discriminate. unfold array_index, is_integer.
  destruct (Qeq_bool (inject_Z (Qfloor q)) q) eqn:Hint; [|discriminate].
  destruct (0 <=? Qfloor q)%Z eqn:Hpos; [|discriminate].
  cbn [andb]. intros [= <-]. exists q. split; [reflexivity|].
  apply Z.leb_le in Hpos. rewrite Z2Nat.id by assumption.
  apply Qeq_sym. now apply Qeq_bool_eq.
Qed.

Lemma grid_addAmp delta (d : SpectrumBin) : grid (addAmp delta d) = grid d.
Proof. reflexivity. Qed.

Lemma grid_alter delta (i : nat) data :
  grid <$> alter (addAmp delta) i data = grid <$> data.
Proof.
  revert i. induction data as [|d data IH]; intros [|i]; cbn; try reflexivity.
  now rewrite IH.
Qed.

Lemma bumpAmp_grid data k delta data' :
  bumpAmp data k delta = Ok data' → grid <$> data' = grid <$> data.
Proof.
  unfold bumpAmp. destruct (array_index k) as [i|]; [|discriminate].
  destruct (data !! i); [|discriminate].
  intros [= <-]. apply grid_alter.
Qed.

Lemma grid_length data data' : grid <$> data' = grid <$> data → length data' = length data.
Proof. intros H. apply (f_equal length) in H. now rewrite !length_fmap in H. Qed.

(** A write inside the array succeeds. *)
Lemma bumpAmp_inside data (q : Q) (b : Z) delta :
  q == inject_Z b → (0 <= b < Z.of_nat (length data))%Z →
  ∃ data', bumpAmp data (Fin q) delta = Ok data' ∧ grid <$> data' = grid <$> data.
Proof.
  intros Hq Hb. unfold bumpAmp.
  rewrite (array_index_integer q b Hq) by lia.
  destruct (lookup_lt_is_Some_2 data (Z.to_nat b)) as [d Hd]; [lia|].
  rewrite Hd. eexists. split; [reflexivity|]. apply grid_alter.
Qed.

(** A write at or after the end of the array raises a [TypeError]. *)
Lemma bumpAmp_outside data (q : Q) (b : Z) delta :
  q == inject_Z b → (Z.of_nat (length data) <= b)%Z →
  bumpAmp data (Fin q) delta = Throw TypeError.
Proof.
  intros Hq Hb. unfold bumpAmp.
  rewrite (array_index_integer q b Hq) by lia.
  rewrite lookup_ge_None_2 by lia. reflexivity.
Qed.

(** A write that succeeds was inside the array. *)
Lemma bumpAmp_Ok_inside data (b : Z) delta data' :
  (0 <= b)%Z → bumpAmp data (Num.of_Z b) delta = Ok data' →
  (b < Z.of_nat (length data))%Z.
Proof.
  intros Hb H. destruct (Z_lt_le_dec b (Z.of_nat (length data))) as [|Hge]; [assumption|].
  unfold Num.of_Z in H.
  rewrite (bumpAmp_outside data _ b delta (Qeq_refl _) Hge) in H. discriminate.
Qed.

(** [new Array(len).fill(0)] succeeds on the integers from [0] to
    [2^32 - 1] only. *)
Lemma newArrayFill0_Ok (len : number) (zeros : list number) :
  newArrayFill0 len = Ok zeros →
  ∃ q, len = Fin q ∧ q == inject_Z (Z.of_nat (length zeros)).
Proof.
  unfold newArrayFill0. destruct (array_index len) as [n|] eqn:Hidx; [|discriminate].
  destruct (Z.of_nat n <? 2 ^ 32)%Z; [|discriminate].
  intros [= <-]. rewrite length_replicate. now apply array_index_Some.
Qed.

Lemma newArrayFill0_integer (q : Q) (k : Z) :
  q == inject_Z k → (0 <= k < 2 ^ 32)%Z →
  newArrayFill0 (Fin q) = Ok (replicate (Z.to_nat k) (Fin 0)).
Proof.
  intros Hq Hk. unfold newArrayFill0.
  rewrite (array_index_integer q k Hq) by lia.
  rewrite Z2Nat.id by lia.
  destruct (Z.ltb_spec k (2 ^ 32)); [reflexivity|lia].
Qed.

Lemma newArrayFill0_fraction (q : Q) (k : Z) :
  q == inject_Z k + (1 # 2) → newArrayFill0 (Fin q) = Throw RangeError.
Proof.
  intros Hq. unfold newArrayFill0, array_index, is_integer.
  destruct (Qeq_bool (inject_Z (Qfloor q)) q) eqn:Hint; [|reflexivity].
  exfalso. apply Qeq_bool_eq in Hint.
  assert (Hk : (Qfloor q = k)%Z).
  { apply Z.le_antisymm.
    - apply Zle_of_Qle_half. rewrite Hint, Hq. apply Qle_refl.
    - rewrite <- (Qfloor_Z k). apply Qfloor_resp_le. lra. }
  rewrite Hk in Hint. lra.
Qed.

End BinArray.

(** ** The synthesis, whatever the configuration *)

Section Synthesis.

Implicit Types (data : list SpectrumBin) (radar : RadarParams).

Lemma bind_Ok {A B} (m : result A) (f : A → result B) (b : B) :
  m ≫= f = Ok b → ∃ a, m = Ok a ∧ f a = Ok b.
Proof. destruct m as [a| |]; try discriminate. intros H. now exists a. Qed.

(** *** More fuel, same result *)

Lemma targetBin_fuel_mono (n m : nat) radar freqRes car b :
  (n <= m)%nat →
  targetBin n radar freqRes car = Ok b → targetBin m radar freqRes car = Ok b.
Proof.
  intros Hnm. unfold targetBin. intros H.
  apply bind_Ok in H as (e & He & H).
  now rewrite (aliasWrap_fuel_mono _ _ n m Hnm _ _ He).
Qed.

Lemma addSignal_fuel_mono (n m : nat) radar numBins freqRes data car data' :
  (n <= m)%nat →
  addSignal n radar numBins freqRes data car = Ok data' →
  addSignal m radar numBins freqRes data car = Ok data'.
Proof.
  intros Hnm. unfold addSignal.
  destruct (speedKmh car >? Fin 0)%num; [|trivial].
  intros H. apply bind_Ok in H as (b & Hb & H).
  now rewrite (targetBin_fuel_mono n m _ _ _ _ Hnm Hb).
Qed.

Lemma forEachCar_fuel_mono (n m : nat) radar numBins freqRes cars :
  (n <= m)%nat → ∀ data data',
  forEachCar n radar numBins freqRes cars data = Ok data' →
  forEachCar m radar numBins freqRes cars data = Ok data'.
Proof.
  intros Hnm. induction cars as [|car cars IH]; intros data data'; [trivial|].
  cbn [forEachCar]. intros H. apply bind_Ok in H as (d & Hd & H).
  rewrite (addSignal_fuel_mono n m _ _ _ _ _ _ Hnm Hd). cbn [mbind result_bind].
  now apply IH.
Qed.

Lemma generateDiscreteSpectrum_fuel_mono (n m : nat) random sim bins :
  (n <= m)%nat →
  generateDiscreteSpectrum n random sim = Ok bins →
  generateDiscreteSpectrum m random sim = Ok bins.
Proof.
  intros Hnm. unfold generateDiscreteSpectrum. intros H.
  apply bind_Ok in H as (zeros & Hz & H). rewrite Hz. cbn [mbind result_bind].
  apply bind_Ok in H as (d & Hd & H).
  now rewrite (forEachCar_fuel_mono n m _ _ _ _ Hnm _ _ Hd).
Qed.

(** *** Only amplitudes change *)

Lemma addSignal_grid fuel radar numBins freqRes data car data' :
  addSignal fuel radar numBins freqRes data car = Ok data' →
  grid <$> data' = grid <$> data.
Proof.
  unfold addSignal.
  destruct (speedKmh car >? Fin 0)%num; [|now intros [= <-]].
  intros H. apply bind_Ok in H as (b & _ & H).
  destruct (binInRange b numBins); [|now intros; injection H as <-].
  apply bind_Ok in H as (d1 & H1 & H). apply bumpAmp_grid in H1.
  apply bind_Ok in H as (d2 & H2 & H).
  assert (G2 : grid <$> d2 = grid <$> d1).
  { destruct (b >? Fin 0)%num; [now apply bumpAmp_grid in H2|now injection H2 as <-]. }
  assert (G3 : grid <$> data' = grid <$> d2).
  { destruct (b <? numBins - Fin 1)%num; [now apply bumpAmp_grid in H|now injection H as <-]. }
  congruence.
Qed.

Lemma forEachCar_grid fuel radar numBins freqRes cars :
  ∀ data data',
  forEachCar fuel radar numBins freqRes cars data = Ok data' →
  grid <$> data' = grid <$> data.
Proof.
  induction cars as [|car cars IH]; intros data data'; cbn [forEachCar].
  - now intros [= <-].
  - intros H. apply bind_Ok in H as (d & Hd & H).
    apply addSignal_grid in Hd. apply IH in H. congruence.
Qed.

(** A spectrum that is returned is the filter of an array of
    [fftSize / 2] bins, at least two, that differs from the initial bins
    in the amplitudes only. *)
Lemma generateDiscreteSpectrum_Ok fuel random sim bins :
  generateDiscreteSpectrum fuel random sim = Ok bins →
  ∃ (len : nat) data,
    (fftSize (radar sim) / Fin 2)%num ≡ Num.of_nat len ∧
    (2 <= len)%nat ∧
    grid <$> data = grid <$> imap (fun i _ => initialBin (radar sim) random i)
                                  (replicate len (Fin 0)) ∧
    bins = List.filter (fun d => (speed d <? visualCutoffSpeed sim)%num) data.
Proof.
  unfold generateDiscreteSpectrum. intros H.
  apply bind_Ok in H as (zeros & Hz & H).
  apply bind_Ok in H as (d1 & H1 & H). apply forEachCar_grid in H1.
  apply bind_Ok in H as (d2 & H2 & H).
  apply bind_Ok in H as (d3 & H3 & H).
  injection H as <-.
  pose proof (bumpAmp_Ok_inside d2 1 _ d3 ltac:(lia) H3) as Hlen.
  apply bumpAmp_grid in H3. pose proof (bumpAmp_grid _ _ _ _ H2) as G2.
  rewrite (grid_length _ _ G2), (grid_length _ _ H1), length_imap in Hlen.
  destruct (newArrayFill0_Ok _ _ Hz) as (q & Hq & Hqlen).
  exists (length zeros), d3. split; [|split; [lia|split; [|reflexivity]]].
  - rewrite Hq. exact Hqlen.
  - unfold newArrayFill0 in Hz.
    destruct (array_index _) as [n|]; [|discriminate].
    destruct (Z.of_nat n <? 2 ^ 32)%Z; [|discriminate].
    injection Hz as <-. rewrite length_replicate, H3, G2, H1. reflexivity.
Qed.

End Synthesis.

(** ** The synthesis under a valid configuration *)

Lemma is_finite_Fin (a : number) : Num.is_finite a = true → ∃ q, a = Fin q.
Proof. destruct a as [q| | |]; try discriminate. intros _. now exists q. Qed.

Section ValidSynthesis.

Variables (f fs n : Q) (k : Z) (ifMHz adcMHz : number).
Hypotheses (f_pos : 0 < f) (fs_pos : 0 < fs) (n_pos : 0 < n).
Hypothesis n_even : n == inject_Z (2 * k).

Let config : RadarParams := mkRadarParams (Fin f) ifMHz adcMHz (Fin fs) (Fin n).

Lemma half_fftSize : n / 2 == inject_Z k.
Proof. rewrite n_even, inject_Z_mult. change (inject_Z 2) with 2. field. Qed.

(** The body of the loop raises nothing on an array of [fftSize / 2]
    bins. *)
Lemma addSignal_valid (data : list SpectrumBin) (car : Car) :
  Z.of_nat (length data) = k → Num.is_finite (speedKmh car) = true →
  ∃ fuel0 data',
    addSignal fuel0 config (Fin n / Fin 2)%num (Fin fs / Fin n)%num data car
    = Ok data'.
Proof.
  intros Hlen Hfin. apply is_finite_Fin in Hfin as [v Hv].
  unfold addSignal.
  destruct (speedKmh car >? Fin 0)%num; [|exists O, data; reflexivity].
  destruct (targetBin_finite f fs n v ifMHz adcMHz car f_pos fs_pos n_pos Hv)
    as (fuel0 & b & Hbin & Hb0 & Hb).
  exists fuel0. fold config in Hbin. rewrite (Hbin fuel0 (Nat.le_refl _)).
  cbn [mbind result_bind].
  destruct (binInRange_even n b k n_even Hb0 Hb) as [_ Hguard].
  unfold Num.of_Z in *.
  destruct (binInRange (Fin (inject_Z b)) (Fin n / Fin 2)%num);
    [|exists data; reflexivity].
  assert (Hbk : (b < k)%Z) by now apply Hguard.
  destruct (bumpAmp_inside data (inject_Z b) b (Fin 100) (Qeq_refl _))
    as (d1 & H1 & G1); [lia|].
  rewrite H1. cbn [mbind result_bind].
  apply grid_length in G1.
  assert (H2 : ∃ d2, (if (Fin (inject_Z b) >? Fin 0)%num
                      then bumpAmp d1 (Fin (inject_Z b) - Fin 1)%num (Fin 30)
                      else Ok d1) = Ok d2 ∧ length d2 = length d1).
  { destruct (Fin (inject_Z b) >? Fin 0)%num eqn:Hpos; [|now exists d1].
    apply gt_fin in Hpos. change 0 with (inject_Z 0) in Hpos.
    rewrite <- Zlt_Qlt in Hpos.
    destruct (bumpAmp_inside d1 (inject_Z b - 1) (b - 1) (Fin 30))
      as (d2 & H2 & G2).
    - unfold Z.sub. rewrite inject_Z_plus. reflexivity.
    - lia.
    - exists d2. split; [exact H2|]. now apply grid_length. }
  destruct H2 as (d2 & H2 & L2). rewrite H2. cbn [mbind result_bind].
  destruct (Fin (inject_Z b) <? Fin n / Fin 2 - Fin 1)%num eqn:Hnext;
    [|now exists d2].
  rewrite number_half in Hnext. apply lt_fin in Hnext.
  rewrite half_fftSize in Hnext.
  assert (Hb1 : (b + 1 < k)%Z).
  { rewrite Zlt_Qlt, inject_Z_plus. change (inject_Z 1) with 1. lra. }
  destruct (bumpAmp_inside d2 (inject_Z b + 1) (b + 1) (Fin 30))
    as (d3 & H3 & _).
  - rewrite inject_Z_plus. reflexivity.
  - lia.
  - now exists d3.
Qed.

Lemma forEachCar_valid (cars : list Car) :
  speeds_finite cars → ∀ data, Z.of_nat (length data) = k →
  ∃ fuel0 data',
    forEachCar fuel0 config (Fin n / Fin 2)%num (Fin fs / Fin n)%num cars data
    = Ok data'.
Proof.
  induction 1 as [|car cars Hcar _ IH]; intros data Hlen.
  - exists O, data. reflexivity.
  - destruct (addSignal_valid data car Hlen Hcar) as (n1 & d1 & H1).
    pose proof (grid_length _ _ (addSignal_grid _ _ _ _ _ _ _ H1)) as L1.
    destruct (IH d1 ltac:(lia)) as (n2 & d2 & H2).
    exists (Nat.max n1 n2), d2. cbn [forEachCar].
    rewrite (addSignal_fuel_mono n1 _ _ _ _ _ _ _ (Nat.le_max_l n1 n2) H1).
    cbn [mbind result_bind].
    exact (forEachCar_fuel_mono n2 _ _ _ _ _ (Nat.le_max_r n1 n2) _ _ H2).
Qed.

(** The array the loop starts from, and the one it ends with. *)
Lemma synthesis_loop_valid (random : nat → number) (cars : list Car) :
  speeds_finite cars → (0 <= k < 2 ^ 32)%Z →
  ∃ fuel0 data,
    newArrayFill0 (Fin n / Fin 2)%num = Ok (replicate (Z.to_nat k) (Fin 0)) ∧
    forEachCar fuel0 config (Fin n / Fin 2)%num (Fin fs / Fin n)%num cars
      (imap (fun i _ => initialBin config random i) (replicate (Z.to_nat k) (Fin 0)))
    = Ok data ∧
    Z.of_nat (length data) = k.
Proof.
  intros Hcars Hk.
  set (data0 := imap (fun i _ => initialBin config random i)
                  (replicate (Z.to_nat k) (Fin 0))).
  assert (L0 : Z.of_nat (length data0) = k).
  { unfold data0. rewrite length_imap, length_replicate. lia. }
  destruct (forEachCar_valid cars Hcars data0 L0) as (fuel0 & data & Hloop).
  exists fuel0, data. split; [|split; [exact Hloop|]].
  - rewrite number_half. apply newArrayFill0_integer; [apply half_fftSize|exact Hk].
  - rewrite (grid_length _ _ (forEachCar_grid _ _ _ _ _ _ _ Hloop)). exact L0.
Qed.

End ValidSynthesis.

(** ** The display filter *)

Section Filter.

Context {A : Type} (p : A → bool).

Lemma filter_none (l : list A) :
  (∀ i x, l !! i = Some x → p x = false) → List.filter p l = [].
Proof.
  induction l as [|a l IH]; intros H; [reflexivity|]. cbn [List.filter].
  rewrite (H 0%nat a eq_refl). apply IH. intros i x Hx. exact (H (S i) x Hx).
Qed.

(** When [p] can only go from true to false along the list, the filter
    keeps an initial segment. *)
Lemma filter_initial_segment (l : list A) :
  (∀ i j x y, (i <= j)%nat → l !! i = Some x → l !! j = Some y →
              p y = true → p x = true) →
  List.filter p l = take (length (List.filter p l)) l ∧
  ∀ i x, (length (List.filter p l) <= i)%nat → l !! i = Some x → p x = false.
Proof.
  induction l as [|a l IH]; intros Hdown.
  - split; [reflexivity|]. intros i x _ Hx. discriminate.
  - cbn [List.filter]. destruct (p a) eqn:Ha.
    + destruct IH as [IH1 IH2].
      { intros i j x y Hij Hx Hy. apply (Hdown (S i) (S j) x y); [lia|exact Hx|exact Hy]. }
      split.
      * cbn [length take]. now rewrite <- IH1.
      * intros [|i] x Hi Hx; cbn [length] in Hi; [lia|].
        apply (IH2 i x); [lia|exact Hx].
    + assert (Hnone : ∀ i x, l !! i = Some x → p x = false).
      { intros i x Hx. destruct (p x) eqn:Hp; [|reflexivity].
        rewrite <- Ha. symmetry.
        apply (Hdown 0%nat (S i) a x); [lia|reflexivity|exact Hx|exact Hp]. }
      rewrite (filter_none l Hnone). split; [reflexivity|].
      intros [|i] x _ Hx; [now injection Hx as <-|].
      exact (Hnone i x Hx).
Qed.

End Filter.

(** [a <= b] and [b < c] give [a < c], whatever [c] is. *)
Lemma lt_le_mono (a b : Q) (c : number) :
  a <= b → (Fin b <? c)%num = true → (Fin a <? c)%num = true.
Proof.
  intros Hab. destruct c as [z| | |]; try (cbn; congruence).
  rewrite !lt_fin. lra.
Qed.

Lemma generateDiscreteSpectrum_unfold (fuel : nat) (random : nat → number)
    (sim : SimulationState) :
  generateDiscreteSpectrum fuel random sim =
  (zeros ← newArrayFill0 (fftSize (radar sim) / Fin 2)%num;
   data ← forEachCar fuel (radar sim) (fftSize (radar sim) / Fin 2)%num
            (basebandSampleRateHz (radar sim) / fftSize (radar sim))%num (cars sim)
            (imap (fun i _ => initialBin (radar sim) random i) zeros);
   data ← bumpAmp data (Fin 0) (Fin 150);
   data ← bumpAmp data (Fin 1) (Fin 50);
   Ok (List.filter (fun d => (speed d <? visualCutoffSpeed sim)%num) data)).
Proof. reflexivity. Qed.

(** The speed of bin [i] under a valid configuration. *)
Lemma initialBin_speed (f fs n : Q) (ifMHz adcMHz : number) (random : nat → number)
    (i : nat) :
  0 < f → 0 < fs → 0 < n →
  speed (initialBin (mkRadarParams (Fin f) ifMHz adcMHz (Fin fs) (Fin n)) random i)
  = Fin (inject_Z (Z.of_nat i) * (fs / n) * 299792458 / (2 * (f * 1000000000)) * 3.6).
Proof.
  intros Hf Hfs Hn. unfold initialBin.
  cbn [speed basebandSampleRateHz fftSize frequencyGHz].
  rewrite (div_fin fs n) by lra. cbn [Num.of_nat Num.of_Z Num.mul].
  now rewrite calculateSpeedFromShift_fin by lra.
Qed.

Lemma bin_speed_monotone (f fs n : Q) (i j : nat) :
  0 < f → 0 < fs → 0 < n → (i <= j)%nat →
  inject_Z (Z.of_nat i) * (fs / n) * 299792458 / (2 * (f * 1000000000)) * 3.6
  <= inject_Z (Z.of_nat j) * (fs / n) * 299792458 / (2 * (f * 1000000000)) * 3.6.
Proof.
  intros Hf Hfs Hn Hij.
  set (c := fs / n * 299792458 / (2 * (f * 1000000000)) * 3.6).
  assert (Hc : 0 <= c).
  { unfold c. apply Qlt_le_weak. apply Qmult_lt_0_compat; [|reflexivity].
    apply Qlt_shift_div_l; [lra|]. rewrite Qmult_0_l.
    apply Qmult_lt_0_compat; [|reflexivity]. now apply Qdiv_pos. }
  assert (E : ∀ z, inject_Z z * (fs / n) * 299792458 / (2 * (f * 1000000000)) * 3.6
                   == inject_Z z * c) by (intros z; unfold c; field; lra).
  rewrite !E. apply Qmult_le_compat_r; [|exact Hc].
  rewrite <- Zle_Qle. lia.
Qed.

(** Under a valid configuration with an even [fftSize = 2k], at least 4,
    the synthesis returns, and it returns the initial segment of the
    [k] bins whose speed is below the visual cutoff. *)
Lemma synthesis_valid (random : nat → number) (sim : SimulationState) (k : Z) :
  ValidConfig (radar sim) → fftSize (radar sim) ≡ Num.of_Z (2 * k) →
  (2 <= k < 2 ^ 32)%Z → speeds_finite (cars sim) →
  ∃ fuel0 bins,
    generateDiscreteSpectrum fuel0 random sim = Ok bins ∧
    (length bins <= Z.to_nat k)%nat ∧
    (∀ i b, bins !! i = Some b →
       grid b = grid (initialBin (radar sim) random i) ∧
       (speed b <? visualCutoffSpeed sim)%num = true) ∧
    (∀ i, (length bins <= i < Z.to_nat k)%nat →
       (speed (initialBin (radar sim) random i) <? visualCutoffSpeed sim)%num = false).
Proof.
  destruct sim as [r cs fts pds sr ms]. cbn [radar cars].
  intros [f fs n ifMHz adcMHz Hf Hfs Hn] Heven Hk Hcars.
  change (n == inject_Z (2 * k)) in Heven.
  set (config := mkRadarParams (Fin f) ifMHz adcMHz (Fin fs) (Fin n)) in *.
  set (sim := mkSimulationState config cs fts pds sr ms).
  destruct (synthesis_loop_valid f fs n k ifMHz adcMHz Hf Hfs Hn Heven random cs
              Hcars ltac:(lia)) as (fuel0 & d1 & Hnew & Hloop & L1).
  fold config in Hloop.
  pose proof (forEachCar_grid _ _ _ _ _ _ _ Hloop) as G1.
  destruct (bumpAmp_inside d1 0 0 (Fin 150) (Qeq_refl _)) as (d2 & H2 & G2); [lia|].
  pose proof (grid_length _ _ G2) as L2.
  destruct (bumpAmp_inside d2 1 1 (Fin 50) (Qeq_refl _)) as (d3 & H3 & G3); [lia|].
  pose proof (grid_length _ _ G3) as L3.
  set (p := fun d : SpectrumBin => (speed d <? visualCutoffSpeed sim)%num).
  assert (Hgrid : ∀ i d, d3 !! i = Some d →
                         grid d = grid (initialBin config random i)).
  { intros i d Hd.
    assert (Hi : (grid <$> d3) !! i = Some (grid d))
      by now rewrite list_lookup_fmap, Hd.
    rewrite G3, G2, G1, list_lookup_fmap, list_lookup_imap in Hi.
    destruct (replicate (Z.to_nat k) (Fin 0) !! i); [|discriminate].
    change (Some (grid (initialBin config random i)) = Some (grid d)) in Hi.
    congruence. }
  assert (Hspeed : ∀ i d, d3 !! i = Some d →
            speed d = Fin (inject_Z (Z.of_nat i) * (fs / n) * 299792458
                           / (2 * (f * 1000000000)) * 3.6)).
  { intros i d Hd. rewrite <- (initialBin_speed f fs n ifMHz adcMHz random i Hf Hfs Hn).
    fold config. apply Hgrid in Hd. unfold grid in Hd. congruence. }
  destruct (filter_initial_segment p d3) as [Hseg Hrest].
  { intros i j x y Hij Hx Hy. unfold p.
    rewrite (Hspeed i x Hx), (Hspeed j y Hy).
    apply lt_le_mono. now apply bin_speed_monotone. }
  set (bins := List.filter p d3) in *.
  assert (Hlen : (length bins <= length d3)%nat).
  { apply (f_equal length) in Hseg. rewrite length_take in Hseg. lia. }
  exists fuel0, bins. split; [|split; [lia|split]].
  - rewrite generateDiscreteSpectrum_unfold.
    change (fftSize (radar sim)) with (Fin n).
    change (basebandSampleRateHz (radar sim)) with (Fin fs).
    change (radar sim) with config. change (cars sim) with cs.
    rewrite Hnew. cbn [mbind result_bind].
    rewrite Hloop. cbn [mbind result_bind].
    rewrite H2. cbn [mbind result_bind]. rewrite H3. reflexivity.
  - intros i b Hb.
    assert (Hi : (i < length bins)%nat) by (eapply lookup_lt_Some; eassumption).
    assert (Hp : p b = true).
    { apply (proj1 (filter_In p b d3)).
      apply list_elem_of_In. eapply list_elem_of_lookup_2. exact Hb. }
    rewrite Hseg, lookup_take_lt in Hb by exact Hi.
    split; [now apply Hgrid|exact Hp].
  - intros i [Hi1 Hi2].
    destruct (lookup_lt_is_Some_2 d3 i) as [d Hd]; [lia|].
    pose proof (Hrest i d Hi1 Hd) as Hfalse. unfold p in Hfalse.
    pose proof (Hgrid i d Hd) as Hg. unfold grid in Hg.
    replace (speed (initialBin config random i)) with (speed d) by congruence.
    exact Hfalse.
Qed.

(** ** The spectrum that is returned *)




(** ** The clutter bins 0 and 1 *)

(** With [fftSize = 2] the array has the single bin 0: the loop over the
    cars and the write to bin 0 succeed, the write to bin 1 raises. *)
Lemma synthesis_single_bin (random : nat → number) (sim : SimulationState) :
  ValidConfig (radar sim) → fftSize (radar sim) ≡ Fin 2 →
  speeds_finite (cars sim) →
  ∃ fuel0, ∀ fuel, (fuel0 <= fuel)%nat →
    generateDiscreteSpectrum fuel random sim = Throw TypeError.
Proof.
  destruct sim as [r cs fts pds sr ms]. cbn [radar cars].
  intros [f fs n ifMHz adcMHz Hf Hfs Hn] Htwo Hcars.
  change (n == 2) in Htwo.
  set (config := mkRadarParams (Fin f) ifMHz adcMHz (Fin fs) (Fin n)) in *.
  set (sim := mkSimulationState config cs fts pds sr ms).
  destruct (synthesis_loop_valid f fs n 1 ifMHz adcMHz Hf Hfs Hn Htwo random cs
              Hcars ltac:(lia)) as (fuel0 & d1 & Hnew & Hloop & L1).
  fold config in Hloop.
  destruct (bumpAmp_inside d1 0 0 (Fin 150) (Qeq_refl _)) as (d2 & H2 & G2); [lia|].
  pose proof (grid_length _ _ G2) as L2.
  exists fuel0. intros fuel Hfuel.
  rewrite generateDiscreteSpectrum_unfold.
  change (fftSize (radar sim)) with (Fin n).
  change (basebandSampleRateHz (radar sim)) with (Fin fs).
  change (radar sim) with config. change (cars sim) with cs.
  rewrite Hnew. cbn [mbind result_bind].
  rewrite (forEachCar_fuel_mono fuel0 fuel _ _ _ _ Hfuel _ _ Hloop).
  cbn [mbind result_bind]. rewrite H2. cbn [mbind result_bind].
  rewrite (bumpAmp_outside d2 1 1 (Fin 50) (Qeq_refl _)) by lia.
  reflexivity.
Qed.

(** With an odd [fftSize] no array of [fftSize / 2] elements exists. *)
Lemma synthesis_odd (fuel : nat) (random : nat → number) (sim : SimulationState)
    (k : Z) :
  fftSize (radar sim) ≡ Num.of_Z (2 * k + 1) →
  generateDiscreteSpectrum fuel random sim = Throw RangeError.
Proof.
  intros Hodd. rewrite generateDiscreteSpectrum_unfold.
  destruct (fftSize (radar sim)) as [m| | |]; try contradiction.
  change (m == inject_Z (2 * k + 1)) in Hodd.
  rewrite number_half, (newArrayFill0_fraction (m / 2) k); [reflexivity|].
  rewrite Hodd, inject_Z_plus, inject_Z_mult.
  change (inject_Z 2) with 2. change (inject_Z 1) with 1. field.
Qed.

(** A synthesis that returns had an even [fftSize] of at least 4. *)
Lemma synthesis_Ok_even (fuel : nat) (random : nat → number)
    (sim : SimulationState) (bins : list SpectrumBin) :
  generateDiscreteSpectrum fuel random sim = Ok bins →
  ∃ k : Z, (2 <= k)%Z ∧ fftSize (radar sim) ≡ Num.of_Z (2 * k).
Proof.
  intros H. apply generateDiscreteSpectrum_Ok in H as (len & _ & Hhalf & Hlen & _).
  exists (Z.of_nat len). split; [lia|].
  destruct (fftSize (radar sim)) as [m| | |]; try contradiction.
  rewrite number_half in Hhalf. change (m / 2 == inject_Z (Z.of_nat len)) in Hhalf.
  change (m == inject_Z (2 * Z.of_nat len)).
  rewrite inject_Z_mult, <- Hhalf. change (inject_Z 2) with 2. field.
Qed.



(** ** Configurations that are not valid *)

Lemma reduce_faster_In (others : list Car) :
  ∀ first, In (fold_left faster others first) (first :: others).
Proof.
  induction others as [|o rest IH]; intros first; [now left|].
  cbn [fold_left]. destruct (IH (faster first o)) as [H|H].
  - rewrite <- H. unfold faster.
    destruct (speedKmh first >? speedKmh o)%num; [now left|now right; left].
  - now right; right.
Qed.

Lemma target_speed_finite (cars : list Car) :
  speeds_finite cars →
  ∃ v, match fastestCar cars with Some car => speedKmh car | None => Fin 0 end
       = Fin v.
Proof.
  intros Hfin. destruct cars as [|first others]; [now exists 0|].
  cbn [fastestCar]. apply is_finite_Fin.
  unfold speeds_finite in Hfin. rewrite Forall_forall in Hfin.
  apply Hfin. apply list_elem_of_In. apply reduce_faster_In.
Qed.

Lemma reportedScalars_finite (radarParams : RadarParams) (cars : list Car) :
  ValidConfig radarParams → speeds_finite cars →
  Forall (fun a => Num.is_finite a = true) (reportedScalars radarParams cars).
Proof.
  intros [f fs n ifMHz adcMHz Hf Hfs Hn] Hcars.
  destruct (target_speed_finite cars Hcars) as [v Hv].
  unfold reportedScalars.
  rewrite (measure_fields f fs n v ifMHz adcMHz cars Hf Hfs Hn Hv).
  unfold resolutionKmh, maxSpeedKmh, wavelengthMm, observationTimeMs,
    calculateMaxUnambiguousSpeed, calculateWavelengthMm, C.
  cbn [frequencyGHz basebandSampleRateHz fftSize realTargetSpeed realDopplerShift
       measuredShiftHz measuredSpeedKmh errorKmh].
  rewrite calculateSpeedResolution_fin by lra.
  rewrite number_half, calculateSpeedFromShift_fin by lra.
  cbn [Num.mul]. rewrite (div_fin 299792458) by lra. rewrite (div_fin n fs) by lra.
  repeat constructor.
Qed.

(** With a negative sample rate the aliasing loop never ends. *)
Lemma aliasWrap_negative_rate (fs : Q) (fuel : nat) :
  fs < 0 → ∀ e, 0 <= e →
  aliasWrap fuel (Fin fs / Fin 2)%num (Fin fs) (Fin e) = OutOfFuel.
Proof.
  intros Hfs. rewrite number_half.
  induction fuel as [|fuel IH]; intros e He; cbn [aliasWrap];
    (assert (Hcmp : (Fin e >? Fin (fs / 2))%num = true)
       by (apply gt_fin; half_as_product; lra));
    rewrite Hcmp; [reflexivity|].
  apply IH. apply Qabs_nonneg.
Qed.

(** So the synthesis of a moving car under a negative sample rate neither
    returns nor raises, whatever the fuel. *)
Lemma synthesis_negative_rate (fuel : nat) (random : nat → number)
    (sim : SimulationState) (f fs n v : Q) (k : Z) (ifMHz adcMHz : number)
    (car : Car) (others : list Car) :
  radar sim = mkRadarParams (Fin f) ifMHz adcMHz (Fin fs) (Fin n) →
  cars sim = car :: others → speedKmh car = Fin v →
  fs < 0 → 0 < v → n == inject_Z (2 * k) → (0 <= k < 2 ^ 32)%Z →
  generateDiscreteSpectrum fuel random sim = OutOfFuel.
Proof.
  intros Hradar Hcars Hv Hfs Hpos Heven Hk.
  rewrite generateDiscreteSpectrum_unfold, Hradar, Hcars.
  cbn [fftSize basebandSampleRateHz].
  rewrite number_half, (newArrayFill0_integer (n / 2) k); [|now apply half_fftSize|exact Hk].
  cbn [mbind result_bind forEachCar]. unfold addSignal. rewrite Hv.
  assert (Hmoving : (Fin v >? Fin 0)%num = true) by now apply gt_fin.
  rewrite Hmoving. unfold targetBin. rewrite Hv.
  cbn [basebandSampleRateHz frequencyGHz].
  rewrite calculateDopplerShift0_fin. cbn [Num.abs].
  rewrite aliasWrap_negative_rate by (assumption || apply Qabs_nonneg).
  reflexivity.
Qed.





(** * Further properties of the engine *)

(** ** The two conversions *)

(** [X1] The forward Doppler formula (at [thetaDegrees = 0]) followed by the
    inverse one gives the speed back, for every finite speed and every
    carrier frequency [f > 0]. *)
Theorem speed_roundtrip (v f : Q) :
  0 < f →
  calculateSpeedFromShift (calculateDopplerShift0 (Fin v) (Fin f)) (Fin f)
  ≡ Fin v.
Proof.
  intros Hf. rewrite calculateDopplerShift0_fin.
  rewrite calculateSpeedFromShift_fin by lra.
  change (2 * (v / 3.6) * (f * 1000000000) * 1 / 299792458 * 299792458
          / (2 * (f * 1000000000)) * 3.6 == v).
  field. lra.
Qed.

Lemma speed_roundtrip_witness :
  calculateSpeedFromShift (calculateDopplerShift0 (Fin 80) (Fin 24.15)) (Fin 24.15)
  ≡ Fin 80.
Proof. apply (speed_roundtrip 80 24.15). reflexivity. Defined.

(** The Doppler shift of a speed is that speed times a positive constant. *)
Lemma doppler_scale (v f : Q) :
  2 * (v / 3.6) * (f * 1000000000) * 1 / 299792458
  == v * (f * (2000000000 / (3.6 * 299792458))).
Proof. field. Qed.

Lemma doppler_scale_pos (f : Q) : 0 < f → 0 < f * (2000000000 / (3.6 * 299792458)).
Proof. intros Hf. apply Qmult_lt_0_compat; [assumption|reflexivity]. Qed.



(** ** The derived metrics *)





(** ** The quantisation of the measurement *)

(** [Math.round] moves a number by half a unit at most. *)
Lemma round_within_half (q : Q) :
  - (1 # 2) < inject_Z (Qfloor (q + (1 # 2))) - q ∧
  inject_Z (Qfloor (q + (1 # 2))) - q <= 1 # 2.
Proof.
  pose proof (Qfloor_le (q + (1 # 2))) as Hle.
  pose proof (Qlt_floor (q + (1 # 2))) as Hlt.
  rewrite inject_Z_plus in Hlt. change (inject_Z 1) with 1 in Hlt.
  split; lra.
Qed.

Lemma Qabs_scaled_half (t c : Q) :
  - (1 # 2) < t → t <= 1 # 2 → 0 < c → Qabs (t * c) <= c / 2.
Proof.
  intros Hlo Hhi Hc. apply Qabs_Qle_condition.
  assert (E : c / 2 == (1 # 2) * c) by field.
  rewrite E. split.
  - assert (E' : - ((1 # 2) * c) == - (1 # 2) * c) by ring.
    rewrite E'. apply Qmult_le_compat_r; lra.
  - apply Qmult_le_compat_r; lra.
Qed.

(** The measurement under a valid configuration: the bin [z] the shift is
    rounded to, and how far the measured values are from the true ones. *)
Lemma measure_quantised (f fs n v : Q) (ifMHz adcMHz : number) (cars : list Car) :
  0 < f → 0 < fs → 0 < n →
  match fastestCar cars with Some car => speedKmh car | None => Fin 0 end = Fin v →
  let config := mkRadarParams (Fin f) ifMHz adcMHz (Fin fs) (Fin n) in
  let m := measure config cars in
  ∃ (z : Z) (shift res r ms mv e : Q),
    realTargetSpeed m = Fin v ∧ realDopplerShift m = Fin shift ∧
    freqResolutionHz m = Fin res ∧ resolutionKmh config = Fin r ∧
    measuredShiftHz m = Fin ms ∧ measuredSpeedKmh m = Fin mv ∧
    errorKmh m = Fin e ∧
    z = Qfloor (shift / res + (1 # 2)) ∧
    shift = 2 * (v / 3.6) * (f * 1000000000) * 1 / 299792458 ∧
    res = fs / n ∧ 0 < res ∧ 0 < r ∧
    ms == inject_Z z * res ∧ mv == inject_Z z * r ∧ e == mv - v ∧
    Qabs (ms - shift) <= res / 2 ∧ Qabs e <= r / 2.
Proof.
  intros Hf Hfs Hn Hv config m. unfold m, config.
  rewrite (measure_fields f fs n v ifMHz adcMHz cars Hf Hfs Hn Hv).
  unfold resolutionKmh. cbn [frequencyGHz basebandSampleRateHz fftSize].
  rewrite calculateSpeedResolution_fin by lra.
  cbn [realTargetSpeed realDopplerShift freqResolutionHz measuredShiftHz
       measuredSpeedKmh errorKmh].
  set (shift := 2 * (v / 3.6) * (f * 1000000000) * 1 / 299792458).
  set (res := fs / n).
  set (z := Qfloor (shift / res + (1 # 2))).
  set (r := res * 299792458 / (2 * (f * 1000000000)) * 3.6).
  pose proof (Qdiv_pos fs n Hfs Hn) as Hres. fold res in Hres.
  assert (Hr : 0 < r).
  { unfold r. apply Qmult_lt_0_compat; [|reflexivity].
    apply Qlt_shift_div_l; [lra|]. rewrite Qmult_0_l.
    apply Qmult_lt_0_compat; [assumption|reflexivity]. }
  destruct (round_within_half (shift / res)) as [Hlo Hhi]. fold z in Hlo, Hhi.
  set (t := inject_Z z - shift / res) in *.
  exists z, shift, res, r, (inject_Z z * res),
    (inject_Z z * res * 299792458 / (2 * (f * 1000000000)) * 3.6),
    (inject_Z z * res * 299792458 / (2 * (f * 1000000000)) * 3.6 - v).
  repeat (split; [reflexivity || assumption|]).
  split; [unfold r; field; lra|]. split; [reflexivity|]. split.
  - assert (E : inject_Z z * res - shift == t * res) by (unfold t; field; lra).
    rewrite E. now apply Qabs_scaled_half.
  - assert (E : inject_Z z * res * 299792458 / (2 * (f * 1000000000)) * 3.6 - v
                == t * r).
    { unfold t, r, shift. field. split; lra. }
    rewrite E. now apply Qabs_scaled_half.
Qed.







(** ** Aliasing, as [App] and the [Oscilloscope] see it *)

Lemma max_speed_fin (f fs : Q) (ifMHz adcMHz fftSize : number) :
  0 < f →
  maxSpeedKmh (mkRadarParams (Fin f) ifMHz adcMHz (Fin fs) fftSize)
  = Fin (fs / 2 * 299792458 / (2 * (f * 1000000000)) * 3.6).
Proof.
  intros Hf. unfold maxSpeedKmh, calculateMaxUnambiguousSpeed.
  cbn [frequencyGHz basebandSampleRateHz].
  now rewrite number_half, calculateSpeedFromShift_fin by lra.
Qed.

(** A speed is above the maximum unambiguous speed exactly when its
    Doppler shift is above the Nyquist frequency. *)
Lemma above_max_speed_iff (f fs v : Q) :
  0 < f →
  fs / 2 * 299792458 / (2 * (f * 1000000000)) * 3.6 < v
  ↔ fs / 2 < 2 * (v / 3.6) * (f * 1000000000) * 1 / 299792458.
Proof.
  intros Hf. pose proof (doppler_scale_pos f Hf) as Hk.
  rewrite doppler_scale.
  set (k := f * (2000000000 / (3.6 * 299792458))) in *.
  assert (E : fs / 2 * 299792458 / (2 * (f * 1000000000)) * 3.6 == fs / 2 / k)
    by (unfold k; field; lra).
  rewrite E. split; intros H.
  - apply (Qmult_lt_r _ _ k Hk) in H.
    assert (E2 : fs / 2 / k * k == fs / 2) by (field; lra).
    now rewrite E2 in H.
  - apply Qlt_shift_div_r; assumption.
Qed.



(** The bin of a car whose shift is not above the Nyquist frequency: the
    loop does nothing, and the bin is the shift rounded. *)
Lemma targetBin_unaliased (f fs n v : Q) (ifMHz adcMHz : number) (car : Car) :
  0 < f → 0 < fs → 0 < n → speedKmh car = Fin v → 0 <= v →
  2 * (v / 3.6) * (f * 1000000000) * 1 / 299792458 <= fs / 2 →
  targetBin 0 (mkRadarParams (Fin f) ifMHz adcMHz (Fin fs) (Fin n))
    (Fin fs / Fin n)%num car
  = Ok (Num.of_Z (Qfloor (2 * (v / 3.6) * (f * 1000000000) * 1 / 299792458
                          / (fs / n) + (1 # 2)))).
Proof.
  intros Hf Hfs Hn Hv Hv0 Hband. unfold targetBin.
  cbn [basebandSampleRateHz frequencyGHz]. rewrite Hv, calculateDopplerShift0_fin.
  set (shift := 2 * (v / 3.6) * (f * 1000000000) * 1 / 299792458) in *.
  assert (Hshift : 0 <= shift).
  { unfold shift. rewrite doppler_scale.
    apply Qmult_le_0_compat; [assumption|].
    apply Qlt_le_weak. now apply doppler_scale_pos. }
  assert (Habs : Qabs shift == shift) by now apply Qabs_pos.
  cbn [Num.abs aliasWrap]. rewrite number_half.
  assert (Hin : (Fin (Qabs shift) >? Fin (fs / 2))%num = false)
    by (apply gt_fin_false; now rewrite Habs).
  rewrite Hin. cbn [mbind result_bind].
  rewrite (div_fin fs n) by lra. rewrite div_fin by now apply Qdiv_nonzero.
  cbn [Num.round]. unfold Num.of_Z. do 3 f_equal.
  apply Qfloor_comp. now rewrite Habs.
Qed.





(** ** The aliasing loop, further *)

Lemma aliasWrap_exit (fuel : nat) (maxFreq rate : number) :
  ∀ e r, aliasWrap fuel maxFreq rate e = Ok r → (r >? maxFreq)%num = false.
Proof.
  induction fuel as [|fuel IH]; intros e r; cbn [aliasWrap];
    destruct (e >? maxFreq)%num eqn:Hcmp; try discriminate.
  - now intros [= <-].
  - apply IH.
  - now intros [= <-].
Qed.

(** [X11] What the loop returns is stable: whenever the aliasing loop ends,
    for any numbers, its result is not above [maxFreq], and the loop run
    again on this result returns it unchanged without iterating. *)
Theorem alias_loop_idempotent (fuel fuel' : nat) (maxFreq rate e r : number) :
  aliasWrap fuel maxFreq rate e = Ok r →
  (r >? maxFreq)%num = false ∧ aliasWrap fuel' maxFreq rate r = Ok r.
Proof.
  intros H. apply aliasWrap_exit in H. split; [exact H|].
  destruct fuel'; cbn [aliasWrap]; now rewrite H.
Qed.

Lemma alias_loop_idempotent_witness :
  (Fin 11800 >? Fin 22050)%num = false ∧
  aliasWrap 0 (Fin 22050) (Fin 44100) (Fin 11800) = Ok (Fin 11800).
Proof.
  apply (alias_loop_idempotent 3 0 (Fin 22050) (Fin 44100) (Fin 100000) (Fin 11800)).
  reflexivity.
Defined.

Lemma fold_once (fs e q : Q) (m : Z) :
  q == Qabs (Qabs (e - fs) - inject_Z m * fs) →
  ∃ m' : Z, q == Qabs (e - inject_Z m' * fs).
Proof.
  intros Hq. destruct (Qlt_le_dec e fs) as [Hlt|Hge].
  - exists (1 - m)%Z. rewrite Hq, (Qabs_neg (e - fs)) by lra.
    rewrite <- (Qabs_opp (e - _)). apply Qabs_wd.
    unfold Z.sub. rewrite inject_Z_plus, inject_Z_opp.
    change (inject_Z 1) with 1. ring.
  - exists (m + 1)%Z. rewrite Hq, (Qabs_pos (e - fs)) by lra.
    apply Qabs_wd. rewrite inject_Z_plus. change (inject_Z 1) with 1. ring.
Qed.

Lemma aliasWrap_alias (fs : Q) (fuel : nat) :
  0 < fs → ∀ e r, 0 <= e →
  aliasWrap fuel (Fin (fs / 2)) (Fin fs) (Fin e) = Ok r →
  ∃ (q : Q) (m : Z),
    r = Fin q ∧ 0 <= q ∧ q <= fs / 2 ∧ q == Qabs (e - inject_Z m * fs).
Proof.
  intros Hfs. induction fuel as [|fuel IH]; intros e r He; cbn [aliasWrap];
    destruct (Fin e >? Fin (fs / 2))%num eqn:Hcmp; try discriminate.
  - intros [= <-]. apply gt_fin_false in Hcmp. exists e, 0%Z.
    repeat split; try assumption.
    rewrite Qabs_pos; [ring|]. change (inject_Z 0) with 0. lra.
  - cbn [Num.sub Num.abs]. intros H.
    destruct (IH _ r (Qabs_nonneg (e - fs)) H) as (q & m & Hr & Hq0 & Hq2 & Hq).
    destruct (fold_once fs e q m Hq) as [m' Hm'].
    exists q, m'. auto.
  - intros [= <-]. apply gt_fin_false in Hcmp. exists e, 0%Z.
    repeat split; try assumption.
    rewrite Qabs_pos; [ring|]. change (inject_Z 0) with 0. lra.
Qed.

Lemma Qabs_ge_l (q y : Q) : q <= y → q <= Qabs y.
Proof. intros H. eapply Qle_trans; [exact H|apply Qle_Qabs]. Qed.

Lemma Qabs_ge_r (q y : Q) : q <= - y → q <= Qabs y.
Proof. intros H. rewrite <- Qabs_opp. now apply Qabs_ge_l. Qed.

(** A multiple of [fs] at most [fs / 2] away is a nearest one. *)
Lemma nearest_multiple (fs e q : Q) (m m' : Z) :
  0 < fs → q <= fs / 2 → q == Qabs (e - inject_Z m * fs) →
  q <= Qabs (e - inject_Z m' * fs).
Proof.
  intros Hfs Hq2 Hq.
  assert (Hd : Qabs (e - inject_Z m * fs) <= q) by (rewrite Hq; apply Qle_refl).
  apply Qabs_Qle_condition in Hd. destruct Hd as [Hlo Hhi].
  destruct (Z.lt_trichotomy m' m) as [Hlt|[->|Hgt]].
  - apply Qabs_ge_l.
    assert (Hstep : inject_Z m' * fs + fs <= inject_Z m * fs).
    { assert (E : inject_Z m' * fs + fs == (inject_Z m' + 1) * fs) by ring.
      rewrite E. apply Qmult_le_compat_r; [|lra].
      change 1 with (inject_Z 1). rewrite <- inject_Z_plus, <- Zle_Qle. lia. }
    revert Hlo Hhi Hstep. generalize (inject_Z m * fs), (inject_Z m' * fs).
    intros a b Hlo Hhi Hstep. half_as_product. lra.
  - rewrite Hq. apply Qle_refl.
  - apply Qabs_ge_r.
    assert (Hstep : inject_Z m * fs + fs <= inject_Z m' * fs).
    { assert (E : inject_Z m * fs + fs == (inject_Z m + 1) * fs) by ring.
      rewrite E. apply Qmult_le_compat_r; [|lra].
      change 1 with (inject_Z 1). rewrite <- inject_Z_plus, <- Zle_Qle. lia. }
    revert Hlo Hhi Hstep. generalize (inject_Z m * fs), (inject_Z m' * fs).
    intros a b Hlo Hhi Hstep. half_as_product. lra.
Qed.



(** [X13] The loop does not end on a sample rate that is not positive, nor
    on an infinite frequency: with [fs <= 0] and a finite start [e >= 0]
    above [fs / 2], and with the start [Infinity] and finite [maxFreq] and
    [fs], every amount of fuel is used up. *)
Theorem alias_loop_diverges (fuel : nat) (fs : Q) :
  (fs <= 0 → ∀ e, 0 <= e → fs / 2 < e →
     aliasWrap fuel (Fin fs / Fin 2)%num (Fin fs) (Fin e) = OutOfFuel) ∧
  (∀ maxFreq : Q, aliasWrap fuel (Fin maxFreq) (Fin fs) PInf = OutOfFuel).
Proof.
  split.
  - intros Hfs. rewrite number_half.
    induction fuel as [|fuel IH]; intros e He Habove; cbn [aliasWrap];
      (assert (Hcmp : (Fin e >? Fin (fs / 2))%num = true) by now apply gt_fin);
      rewrite Hcmp; [reflexivity|].
    cbn [Num.sub Num.abs]. apply IH; [apply Qabs_nonneg|].
    rewrite Qabs_pos by lra. half_as_product. lra.
  - intros maxFreq. induction fuel as [|fuel IH]; [reflexivity|exact IH].
Qed.

Lemma alias_loop_diverges_witness :
  aliasWrap 1000 (Fin 0 / Fin 2)%num (Fin 0) (Fin 3580) = OutOfFuel ∧
  aliasWrap 1000 (Fin 22050) (Fin 44100) PInf = OutOfFuel.
Proof.
  split.
  - apply (proj1 (alias_loop_diverges 1000 0)); [discriminate|discriminate|reflexivity].
  - apply (proj2 (alias_loop_diverges 1000 44100)).
Defined.

(** ** The amplitudes of the spectrum *)

Section Amplitudes.

Implicit Types (data : list SpectrumBin) (a : nat → Q).

Lemma amps_ext data a a' :
  amps data a → (∀ i, (i < length data)%nat → a i == a' i) → amps data a'.
Proof.
  intros Ha Hext i d Hd. specialize (Ha i d Hd).
  destruct (amp d) as [q| | |]; try contradiction.
  change (q == a' i). change (q == a i) in Ha.
  rewrite Ha. apply Hext. eapply lookup_lt_Some; eassumption.
Qed.

(** A write adds its amount to the bin it hits, and to no other. *)
Lemma bumpAmp_amps data a (q delta : Q) (b : Z) data' :
  q == inject_Z b → (0 <= b)%Z →
  bumpAmp data (Fin q) (Fin delta) = Ok data' → amps data a →
  amps data' (fun i => a i + (if (Z.of_nat i =? b)%Z then delta else 0)).
Proof.
  intros Hq Hb. unfold bumpAmp. rewrite (array_index_integer q b Hq Hb).
  destruct (data !! Z.to_nat b) as [d0|] eqn:Hd0; [|discriminate].
  intros [= <-] Ha i d Hd.
  rewrite list_lookup_alter in Hd.
  destruct (decide (Z.to_nat b = i)) as [<-|Hne].
  - rewrite Hd0 in Hd. injection Hd as <-.
    rewrite Z2Nat.id, Z.eqb_refl by assumption.
    specialize (Ha _ _ Hd0). cbn [addAmp amp].
    destruct (amp d0) as [x| | |]; try contradiction.
    change (x + delta == a (Z.to_nat b) + delta).
    change (x == a (Z.to_nat b)) in Ha. now rewrite Ha.
  - specialize (Ha _ _ Hd).
    destruct (Z.eqb_spec (Z.of_nat i) b) as [E|_]; [lia|].
    destruct (amp d) as [x| | |]; try contradiction.
    change (x == a i + 0). change (x == a i) in Ha. rewrite Ha. ring.
Qed.

Lemma targetBin_deterministic (n m : nat) (radar : RadarParams) (freqRes : number)
    (car : Car) (x y : number) :
  targetBin n radar freqRes car = Ok x → targetBin m radar freqRes car = Ok y →
  x = y.
Proof.
  intros Hx Hy.
  apply (targetBin_fuel_mono n (Nat.max n m)) in Hx; [|apply Nat.le_max_l].
  apply (targetBin_fuel_mono m (Nat.max n m)) in Hy; [|apply Nat.le_max_r].
  congruence.
Qed.

Variables (n : Q) (k : Z) (radar : RadarParams).
Hypothesis n_even : n == inject_Z (2 * k).
Hypothesis radar_fftSize : fftSize radar = Fin n.

(** One car adds its lobe. *)
Lemma addSignal_amps (fuel : nat) data a (car : Car) (peak : option Z) data' :
  Z.of_nat (length data) = k → carPeak radar car peak → amps data a →
  addSignal fuel radar (Fin n / Fin 2)%num
    (basebandSampleRateHz radar / fftSize radar)%num data car = Ok data' →
  amps data' (fun i => a i + lobe peak i).
Proof.
  intros Hlen Hpeak Ha. unfold addSignal, carPeak in *.
  destruct (speedKmh car >? Fin 0)%num.
  2:{ subst peak. intros [= <-]. apply (amps_ext _ _ _ Ha).
      intros i _. cbn. ring. }
  destruct Hpeak as (fuel1 & b & Hbin & Hpeak).
  intros H. apply bind_Ok in H as (x & Hx & H).
  rewrite (targetBin_deterministic _ _ _ _ _ _ _ Hx Hbin) in H. clear x Hx.
  rewrite radar_fftSize in Hpeak.
  destruct (binInRange (Num.of_Z b) (Fin n / Fin 2)%num) eqn:Hguard.
  2:{ subst peak. injection H as <-. apply (amps_ext _ _ _ Ha).
      intros i _. cbn. ring. }
  subst peak. unfold binInRange in Hguard.
  apply andb_true_iff in Hguard as [Hb0 Hbk]. unfold Num.of_Z in *.
  apply ge_fin in Hb0. change 0 with (inject_Z 0) in Hb0. rewrite <- Zle_Qle in Hb0.
  rewrite number_half in *. apply lt_fin in Hbk.
  rewrite (half_fftSize n k n_even), <- Zlt_Qlt in Hbk.
  apply bind_Ok in H as (d1 & H1 & H).
  pose proof (bumpAmp_amps _ _ _ _ b _ (Qeq_refl _) Hb0 H1 Ha) as A1.
  pose proof (grid_length _ _ (bumpAmp_grid _ _ _ _ H1)) as L1.
  apply bind_Ok in H as (d2 & H2 & H).
  assert (A2 : amps d2 (fun i => a i + (if (Z.of_nat i =? b)%Z then 100 else 0)
                                + (if (Z.of_nat i =? b - 1)%Z then 30 else 0))
               ∧ length d2 = length d1).
  { destruct (Fin (inject_Z b) >? Fin 0)%num eqn:Hpos.
    - split; [|exact (grid_length _ _ (bumpAmp_grid _ _ _ _ H2))].
      apply gt_fin in Hpos. change 0 with (inject_Z 0) in Hpos.
      rewrite <- Zlt_Qlt in Hpos. cbn [Num.sub] in H2.
      refine (bumpAmp_amps _ _ _ _ (b - 1) _ _ _ H2 A1); [|lia].
      unfold Z.sub. rewrite inject_Z_plus. reflexivity.
    - injection H2 as <-. split; [|reflexivity].
      apply gt_fin_false in Hpos. change 0 with (inject_Z 0) in Hpos.
      rewrite <- Zle_Qle in Hpos.
      apply (amps_ext _ _ _ A1). intros i _.
      destruct (Z.eqb_spec (Z.of_nat i) (b - 1)); [lia|ring]. }
  destruct A2 as [A2 L2].
  assert (A3 : amps data'
                 (fun i => a i + (if (Z.of_nat i =? b)%Z then 100 else 0)
                           + (if (Z.of_nat i =? b - 1)%Z then 30 else 0)
                           + (if (Z.of_nat i =? b + 1)%Z then 30 else 0))
               ∧ length data' = length d2).
  { destruct (Fin (inject_Z b) <? Fin (n / 2) - Fin 1)%num eqn:Hnext.
    - split; [|exact (grid_length _ _ (bumpAmp_grid _ _ _ _ H))].
      cbn [Num.add] in H.
      refine (bumpAmp_amps _ _ _ _ (b + 1) _ _ _ H A2); [|lia].
      rewrite inject_Z_plus. reflexivity.
    - injection H as <-. split; [|reflexivity].
      apply lt_fin_false in Hnext.
      rewrite (half_fftSize n k n_even) in Hnext.
      assert (Hlast : (k - 1 <= b)%Z).
      { rewrite Zle_Qle. unfold Z.sub. rewrite inject_Z_plus. exact Hnext. }
      apply (amps_ext _ _ _ A2). intros i Hi.
      destruct (Z.eqb_spec (Z.of_nat i) (b + 1)); [lia|ring]. }
  destruct A3 as [A3 _].
  apply (amps_ext _ _ _ A3). intros i _. cbn [lobe].
  destruct (Z.eqb_spec (Z.of_nat i) b), (Z.eqb_spec (Z.of_nat i) (b - 1)),
    (Z.eqb_spec (Z.of_nat i) (b + 1)); cbn [orb]; try lia; ring.
Qed.

(** The cars add their lobes, one after the other. *)
Lemma forEachCar_amps (fuel : nat) (cars : list Car) (peaks : list (option Z)) :
  Forall2 (carPeak radar) cars peaks → ∀ data a data',
  Z.of_nat (length data) = k → amps data a →
  forEachCar fuel radar (Fin n / Fin 2)%num
    (basebandSampleRateHz radar / fftSize radar)%num cars data = Ok data' →
  amps data' (fun i => a i + lobes peaks i).
Proof.
  induction 1 as [|car peak cars peaks Hpeak _ IH]; intros data a data' Hlen Ha;
    cbn [forEachCar].
  - intros [= <-]. apply (amps_ext _ _ _ Ha). intros i _.
    cbn [lobes fold_right]. ring.
  - intros H. apply bind_Ok in H as (d1 & H1 & H).
    pose proof (addSignal_amps fuel data a car peak d1 Hlen Hpeak Ha H1) as A1.
    pose proof (grid_length _ _ (addSignal_grid _ _ _ _ _ _ _ H1)) as L1.
    specialize (IH d1 _ data' ltac:(lia) A1 H).
    apply (amps_ext _ _ _ IH). intros i _. cbn beta.
    change (lobes (peak :: peaks) i) with (lobe peak i + lobes peaks i). ring.
Qed.

End Amplitudes.

Lemma generateDiscreteSpectrum_deterministic (n m : nat) (random : nat → number)
    (sim : SimulationState) (bins bins' : list SpectrumBin) :
  generateDiscreteSpectrum n random sim = Ok bins →
  generateDiscreteSpectrum m random sim = Ok bins' → bins = bins'.
Proof.
  intros H H'.
  apply (generateDiscreteSpectrum_fuel_mono n (Nat.max n m)) in H;
    [|apply Nat.le_max_l].
  apply (generateDiscreteSpectrum_fuel_mono m (Nat.max n m)) in H';
    [|apply Nat.le_max_r].
  congruence.
Qed.

(** The run of a synthesis that returns, under a valid configuration with
    [fftSize = 2k]: the array after the cars, after the clutter, and the
    bins returned, which are its first ones. *)
Lemma synthesis_run (f fs n : Q) (k : Z) (ifMHz adcMHz : number)
    (random : nat → number) (sim : SimulationState) (fuel : nat)
    (bins : list SpectrumBin) :
  0 < f → 0 < fs → 0 < n → n == inject_Z (2 * k) →
  radar sim = mkRadarParams (Fin f) ifMHz adcMHz (Fin fs) (Fin n) →
  generateDiscreteSpectrum fuel random sim = Ok bins →
  ∃ d1 d2 d3 : list SpectrumBin,
    forEachCar fuel (radar sim) (Fin n / Fin 2)%num
      (basebandSampleRateHz (radar sim) / fftSize (radar sim))%num (cars sim)
      (imap (fun i _ => initialBin (radar sim) random i)
         (replicate (Z.to_nat k) (Fin 0))) = Ok d1 ∧
    bumpAmp d1 (Fin 0) (Fin 150) = Ok d2 ∧
    bumpAmp d2 (Fin 1) (Fin 50) = Ok d3 ∧
    Z.of_nat (length d1) = k ∧
    ∀ i b, bins !! i = Some b → d3 !! i = Some b.
Proof.
  intros Hf Hfs Hn Heven Hradar H.
  assert (Hk : (0 < k)%Z).
  { apply Z.mul_pos_cancel_l with 2%Z; [lia|]. rewrite Zlt_Qlt, <- Heven. exact Hn. }
  rewrite generateDiscreteSpectrum_unfold in H.
  apply bind_Ok in H as (zeros & Hz & H).
  assert (Hzeros : zeros = replicate (Z.to_nat k) (Fin 0)).
  { rewrite Hradar in Hz. cbn [fftSize] in Hz. rewrite number_half in Hz.
    unfold newArrayFill0 in Hz.
    rewrite (array_index_integer (n / 2) k (half_fftSize n k Heven)) in Hz by lia.
    destruct (Z.of_nat (Z.to_nat k) <? 2 ^ 32)%Z; congruence. }
  subst zeros.
  apply bind_Ok in H as (d1 & H1 & H).
  apply bind_Ok in H as (d2 & H2 & H).
  apply bind_Ok in H as (d3 & H3 & H). injection H as <-.
  pose proof (forEachCar_grid _ _ _ _ _ _ _ H1) as G1.
  pose proof (bumpAmp_grid _ _ _ _ H2) as G2.
  pose proof (bumpAmp_grid _ _ _ _ H3) as G3.
  exists d1, d2, d3.
  assert (Hfft : fftSize (radar sim) = Fin n) by now rewrite Hradar.
  rewrite Hfft in H1 at 1.
  split; [exact H1|]. split; [exact H2|]. split; [exact H3|]. split.
  { rewrite (grid_length _ _ G1), length_imap, length_replicate. lia. }
  set (p := fun d : SpectrumBin => (speed d <? visualCutoffSpeed sim)%num).
  assert (Hspeed : ∀ i d, d3 !! i = Some d →
            speed d = Fin (inject_Z (Z.of_nat i) * (fs / n) * 299792458
                           / (2 * (f * 1000000000)) * 3.6)).
  { intros i d Hd.
    rewrite <- (initialBin_speed f fs n ifMHz adcMHz random i Hf Hfs Hn).
    rewrite <- Hradar.
    assert (Hi : (grid <$> d3) !! i = Some (grid d))
      by now rewrite list_lookup_fmap, Hd.
    rewrite G3, G2, G1, list_lookup_fmap, list_lookup_imap in Hi.
    destruct (replicate (Z.to_nat k) (Fin 0) !! i); [|discriminate].
    change (Some (grid (initialBin (radar sim) random i)) = Some (grid d)) in Hi.
    unfold grid in Hi. congruence. }
  destruct (filter_initial_segment p d3) as [Hseg _].
  { intros i j x y Hij Hx Hy. unfold p.
    rewrite (Hspeed i x Hx), (Hspeed j y Hy).
    apply lt_le_mono. now apply bin_speed_monotone. }
  intros i b Hb. fold p in Hb.
  assert (Hi : (i < length (List.filter p d3))%nat)
    by (eapply lookup_lt_Some; eassumption).
  rewrite Hseg, lookup_take_lt in Hb by exact Hi. exact Hb.
Qed.

(** The amplitudes of the bins that are returned. *)
Lemma spectrum_amps (f fs n : Q) (k : Z) (ifMHz adcMHz : number)
    (noise : nat → Q) (sim : SimulationState) (fuel : nat)
    (bins : list SpectrumBin) (peaks : list (option Z)) :
  0 < f → 0 < fs → 0 < n → n == inject_Z (2 * k) →
  radar sim = mkRadarParams (Fin f) ifMHz adcMHz (Fin fs) (Fin n) →
  Forall2 (carPeak (radar sim)) (cars sim) peaks →
  generateDiscreteSpectrum fuel (fun i => Fin (noise i)) sim = Ok bins →
  amps bins (fun i => 2 + noise i * 2 + lobes peaks i + clutter i).
Proof.
  intros Hf Hfs Hn Heven Hradar Hpeaks H.
  destruct (synthesis_run f fs n k ifMHz adcMHz _ sim fuel bins
              Hf Hfs Hn Heven Hradar H) as (d1 & d2 & d3 & H1 & H2 & H3 & L1 & Hbins).
  assert (Hfft : fftSize (radar sim) = Fin n) by now rewrite Hradar.
  set (data0 := imap (fun i _ => initialBin (radar sim) (fun i => Fin (noise i)) i)
                  (replicate (Z.to_nat k) (Fin 0))) in *.
  assert (A0 : amps data0 (fun i => 2 + noise i * 2)).
  { intros i d Hd. unfold data0 in Hd. rewrite list_lookup_imap in Hd.
    destruct (replicate (Z.to_nat k) (Fin 0) !! i); [|discriminate].
    injection Hd as <-. cbn [initialBin amp Num.mul Num.add]. apply Qeq_refl. }
  assert (L0 : Z.of_nat (length data0) = k).
  { rewrite <- L1. f_equal. symmetry.
    exact (grid_length _ _ (forEachCar_grid _ _ _ _ _ _ _ H1)). }
  pose proof (forEachCar_amps n k (radar sim) Heven Hfft fuel (cars sim) peaks
                Hpeaks data0 _ d1 L0 A0 H1) as A1.
  pose proof (bumpAmp_amps d1 _ 0 150 0 d2 (Qeq_refl _) ltac:(lia) H2 A1) as A2.
  pose proof (bumpAmp_amps d2 _ 1 50 1 d3 (Qeq_refl _) ltac:(lia) H3 A2) as A3.
  intros i b Hb. apply Hbins in Hb. specialize (A3 i b Hb). cbn beta in A3.
  destruct (amp b) as [q| | |]; try contradiction.
  change (q == 2 + noise i * 2 + lobes peaks i + clutter i).
  change (q == 2 + noise i * 2 + lobes peaks i
               + (if (Z.of_nat i =? 0)%Z then 150 else 0)
               + (if (Z.of_nat i =? 1)%Z then 50 else 0)) in A3.
  rewrite A3. destruct i as [|[|i]]; cbn [clutter].
  - change (Z.of_nat 0 =? 0)%Z with true. change (Z.of_nat 0 =? 1)%Z with false.
    cbv iota. ring.
  - change (Z.of_nat 1 =? 0)%Z with false. change (Z.of_nat 1 =? 1)%Z with true.
    cbv iota. ring.
  - destruct (Z.eqb_spec (Z.of_nat (S (S i))) 0); [lia|].
    destruct (Z.eqb_spec (Z.of_nat (S (S i))) 1); [lia|]. ring.
Qed.

(** [X14] The amplitudes add up: under a valid configuration with an even
    [fftSize], when the peaks of the cars are [peaks] and the noise of bin
    [i] is [noise i], every bin [i] that is returned has the amplitude
    [2 + 2 * noise i], plus 100 for every car whose peak is [i] and 30 for
    every car whose peak is next to [i], plus the clutter (150 at bin 0,
    50 at bin 1).  Cars that share a bin accumulate. *)
Theorem spectrum_amplitudes_add_up (noise : nat → Q) (sim : SimulationState)
    (k : Z) (fuel : nat) (bins : list SpectrumBin) (peaks : list (option Z)) :
  ValidConfig (radar sim) → fftSize (radar sim) ≡ Num.of_Z (2 * k) →
  Forall2 (carPeak (radar sim)) (cars sim) peaks →
  generateDiscreteSpectrum fuel (fun i => Fin (noise i)) sim = Ok bins →
  ∀ i b, bins !! i = Some b →
    amp b ≡ Fin (2 + noise i * 2 + lobes peaks i + clutter i).
Proof.
  destruct sim as [r cs fts pds sr ms]. cbn [radar cars].
  intros [f fs n ifMHz adcMHz Hf Hfs Hn] Heven Hpeaks Hgen.
  change (n == inject_Z (2 * k)) in Heven.
  set (config := mkRadarParams (Fin f) ifMHz adcMHz (Fin fs) (Fin n)) in *.
  exact (spectrum_amps f fs n k ifMHz adcMHz noise
           (mkSimulationState config cs fts pds sr ms) fuel bins peaks
           Hf Hfs Hn Heven eq_refl Hpeaks Hgen).
Qed.

Lemma spectrum_amplitudes_add_up_witness :
  ∃ bins, generateDiscreteSpectrum 0 noNoise twoCarsSim = Ok bins ∧
    ∀ i b, bins !! i = Some b →
      amp b ≡ Fin (2 + 0 * 2 + lobes [Some 1%Z; Some 1%Z] i + clutter i).
Proof.
  eexists. split; [vm_compute; reflexivity|].
  apply (spectrum_amplitudes_add_up (fun _ => 0) twoCarsSim 8 0 _
           [Some 1%Z; Some 1%Z]).
  - apply valid_config; reflexivity.
  - reflexivity.
  - constructor; [exists 0%nat, 1%Z; split; reflexivity|].
    constructor; [exists 0%nat, 1%Z; split; reflexivity|].
    constructor.
  - vm_compute. reflexivity.
Defined.





(** ** The bins that are displayed *)

Lemma Qceiling_between (x : Q) (z : Z) :
  inject_Z (z - 1) < x → x <= inject_Z z → Qceiling x = z.
Proof.
  intros Hlo Hhi. pose proof (Qle_ceiling x) as H1.
  pose proof (Qceiling_lt x) as H2.
  apply Z.le_antisymm.
  - apply Z.lt_pred_le. rewrite Zlt_Qlt. unfold Z.pred.
    change (Qceiling x + -1)%Z with (Qceiling x - 1)%Z. lra.
  - apply Z.lt_pred_le. rewrite Zlt_Qlt. unfold Z.pred.
    change (z + -1)%Z with (z - 1)%Z. lra.
Qed.

(** The speed of bin [i] is [i] speed resolutions, and the maximum
    unambiguous speed is [fftSize / 2] of them. *)
Lemma bin_speeds (f fs n : Q) (ifMHz adcMHz : number) (random : nat → number) :
  0 < f → 0 < fs → 0 < n →
  let config := mkRadarParams (Fin f) ifMHz adcMHz (Fin fs) (Fin n) in
  ∃ r top,
    resolutionKmh config = Fin r ∧ 0 < r ∧
    maxSpeedKmh config = Fin top ∧ top == n / 2 * r ∧
    ∀ i, ∃ s, speed (initialBin config random i) = Fin s ∧
              s == inject_Z (Z.of_nat i) * r.
Proof.
  intros Hf Hfs Hn config. unfold config.
  rewrite max_speed_fin by assumption.
  unfold resolutionKmh. cbn [frequencyGHz basebandSampleRateHz fftSize].
  rewrite calculateSpeedResolution_fin by lra.
  set (r := fs / n * 299792458 / (2 * (f * 1000000000)) * 3.6).
  assert (Hr : 0 < r).
  { unfold r. apply Qmult_lt_0_compat; [|reflexivity].
    apply Qlt_shift_div_l; [lra|]. rewrite Qmult_0_l.
    apply Qmult_lt_0_compat; [|reflexivity]. now apply Qdiv_pos. }
  exists r, (fs / 2 * 299792458 / (2 * (f * 1000000000)) * 3.6).
  split; [reflexivity|]. split; [exact Hr|]. split; [reflexivity|]. split.
  - unfold r. field. split; lra.
  - intros i. rewrite initialBin_speed by assumption. eexists.
    split; [reflexivity|]. unfold r. field. split; lra.
Qed.

(** The cutoff of the display, when [App] supplies the maximum speed. *)
Lemma visualCutoffSpeed_fin (radarParams : RadarParams) (cars : list Car) (top : Q) :
  maxSpeedKmh radarParams = Fin top →
  ∃ c, visualCutoffSpeed (simState radarParams cars) = Fin c ∧ 200 <= c ∧
       top * 0.8 <= c ∧ (200 <= top * 0.8 → c == top * 0.8) ∧
       (top * 0.8 <= 200 → c == 200).
Proof.
  intros Htop. unfold visualCutoffSpeed, simState. cbn [maxSpeed]. rewrite Htop.
  cbn [Num.mul Num.max].
  destruct (Fin 200 <? Fin (top * 0.8))%num eqn:Hcmp.
  - apply lt_fin in Hcmp. exists (top * 0.8).
    split; [reflexivity|]. split; [lra|]. split; [apply Qle_refl|].
    split; [intros _; apply Qeq_refl|intros H; lra].
  - apply lt_fin_false in Hcmp. exists 200.
    split; [reflexivity|]. split; [apply Qle_refl|]. split; [exact Hcmp|].
    split; [intros H; lra|intros _; apply Qeq_refl].
Qed.

(** The synthesis of what [App] supplies, under a valid configuration: the
    number of bins that are returned. *)
Lemma displayed_bins (f fs n : Q) (k : Z) (ifMHz adcMHz : number)
    (random : nat → number) (cars : list Car) (fuel : nat)
    (bins : list SpectrumBin) :
  0 < f → 0 < fs → 0 < n → n == inject_Z (2 * k) → (2 <= k < 2 ^ 32)%Z →
  speeds_finite cars →
  let config := mkRadarParams (Fin f) ifMHz adcMHz (Fin fs) (Fin n) in
  generateDiscreteSpectrum fuel random (simState config cars) = Ok bins →
  ∃ c r top,
    visualCutoffSpeed (simState config cars) = Fin c ∧
    resolutionKmh config = Fin r ∧ maxSpeedKmh config = Fin top ∧
    0 < r ∧ 200 <= c ∧ top == inject_Z k * r ∧
    (200 <= top * 0.8 → c == top * 0.8) ∧ (top * 0.8 <= 200 → c == 200) ∧
    Z.of_nat (length bins) = Z.min k (Qceiling (c / r)) ∧
    ∀ i b, bins !! i = Some b →
      ∃ s, speed b = Fin s ∧ s == inject_Z (Z.of_nat i) * r.
Proof.
  intros Hf Hfs Hn Heven Hk Hcars config Hgen.
  destruct (bin_speeds f fs n ifMHz adcMHz random Hf Hfs Hn)
    as (r & top & Hr & Hrpos & Htop & Etop & Hspeeds). fold config in Hr, Htop, Hspeeds.
  destruct (visualCutoffSpeed_fin config cars top Htop)
    as (c & Hc & Hc200 & _ & Hc1 & Hc2).
  destruct (synthesis_valid random (simState config cars) k
              ltac:(apply valid_config; assumption) Heven Hk Hcars)
    as (fuel0 & bins0 & Hgen0 & Hlen & Hin & Hout).
  rewrite <- (generateDiscreteSpectrum_deterministic _ _ _ _ _ _ Hgen Hgen0)
    in Hlen, Hin, Hout. clear bins0 Hgen0.
  change (radar (simState config cars)) with config in Hin, Hout.
  rewrite Hc in Hin, Hout.
  assert (Htopk : top == inject_Z k * r).
  { rewrite Etop, (half_fftSize n k Heven). reflexivity. }
  exists c, r, top. repeat (split; [assumption|]).
  assert (Hx : 0 < c / r) by (apply Qdiv_pos; lra).
  assert (Hbelow : ∀ i, (i < length bins)%nat → inject_Z (Z.of_nat i) < c / r).
  { intros i Hi. destruct (lookup_lt_is_Some_2 bins i Hi) as [b Hb].
    destruct (Hin i b Hb) as [Hg Hlt]. unfold grid in Hg.
    destruct (Hspeeds i) as (s & Hs & Es).
    replace (speed b) with (Fin s) in Hlt by congruence.
    apply lt_fin in Hlt. apply Qlt_shift_div_l; [assumption|]. now rewrite <- Es. }
  assert (Habove : ∀ i, (length bins <= i < Z.to_nat k)%nat →
                        c / r <= inject_Z (Z.of_nat i)).
  { intros i Hi. specialize (Hout i Hi).
    destruct (Hspeeds i) as (s & Hs & Es). rewrite Hs in Hout.
    apply lt_fin_false in Hout. apply Qle_shift_div_r; [assumption|].
    now rewrite <- Es. }
  split.
  - destruct (Nat.eq_dec (length bins) (Z.to_nat k)) as [Hfull|Hpart].
    + assert (Hlast : inject_Z (k - 1) < c / r).
      { replace (k - 1)%Z with (Z.of_nat (Z.to_nat k - 1)) by lia.
        apply Hbelow. lia. }
      pose proof (Qle_ceiling (c / r)) as Hceil.
      assert (k <= Qceiling (c / r))%Z.
      { apply Z.lt_pred_le. rewrite Zlt_Qlt. unfold Z.pred.
        change (k + -1)%Z with (k - 1)%Z. lra. }
      lia.
    + assert (Hat : c / r <= inject_Z (Z.of_nat (length bins)))
        by (apply Habove; lia).
      assert (Hpos : (0 < length bins)%nat).
      { destruct (length bins); [|lia]. change (inject_Z (Z.of_nat 0)) with 0 in Hat. lra. }
      assert (Hprev : inject_Z (Z.of_nat (length bins) - 1) < c / r).
      { replace (Z.of_nat (length bins) - 1)%Z with (Z.of_nat (length bins - 1)) by lia.
        apply Hbelow. lia. }
      rewrite (Qceiling_between _ _ Hprev Hat). lia.
  - intros i b Hb. destruct (Hin i b Hb) as [Hg _]. unfold grid in Hg.
    destruct (Hspeeds i) as (s & Hs & Es). exists s.
    split; [congruence|exact Es].
Qed.





(** * The cars of [App] *)

(** ** Remainders and maxima of indices *)

Lemma rem_index (q : Q) (i : nat) (m : Z) :
  (0 < m)%Z → q == inject_Z (Z.of_nat i) →
  ∃ q', Num.rem (Fin q) (Fin (inject_Z m)) = Fin q' ∧
        q' == inject_Z (Z.of_nat i mod m).
Proof.
  intros Hm Hq. unfold Num.rem.
  assert (Hm' : 0 < inject_Z m) by (change 0 with (inject_Z 0); now rewrite <- Zlt_Qlt).
  rewrite is_zero_false by lra.
  eexists. split; [reflexivity|].
  assert (Hq0 : 0 <= q).
  { rewrite Hq. change 0 with (inject_Z 0). rewrite <- Zle_Qle. lia. }
  assert (Hquot : 0 <= q / inject_Z m) by (apply Qle_shift_div_l; lra).
  unfold Num.truncate. apply Qle_bool_iff in Hquot. rewrite Hquot.
  assert (Hfloor : Qfloor (q / inject_Z m) = (Z.of_nat i / m)%Z).
  { rewrite Zdiv_Qdiv. apply Qfloor_comp. now rewrite Hq. }
  rewrite Hfloor, Hq, Z.mod_eq by lia.
  unfold Z.sub. rewrite inject_Z_plus, inject_Z_opp, inject_Z_mult. ring.
Qed.

Lemma max_equiv (a a' b b' : number) :
  a ≡ a' → b ≡ b' → Num.max a b ≡ Num.max a' b'.
Proof.
  destruct a as [x| | |], a' as [x'| | |]; try contradiction;
    destruct b as [y| | |], b' as [y'| | |]; try contradiction;
    intros Ha Hb; try exact I; try assumption.
  change (x == x') in Ha. change (y == y') in Hb. unfold Num.max.
  destruct (Fin x <? Fin y)%num eqn:H1, (Fin x' <? Fin y')%num eqn:H2;
    try assumption.
  - apply lt_fin in H1. apply lt_fin_false in H2.
    change (y == x'). lra.
  - apply lt_fin_false in H1. apply lt_fin in H2.
    change (x == y'). lra.
Qed.

(** The largest of the ids [0 .. n-1], in this order, is [n - 1]. *)
Lemma max_of_indices (ids : list number) :
  (∀ i a, ids !! i = Some a → a ≡ Num.of_nat i) →
  Num.max_of ids ≡ match length ids with
                   | O => NInf
                   | S n => Num.of_nat n
                   end.
Proof.
  induction ids as [|a ids IH] using rev_ind; intros Hids; [exact I|].
  unfold Num.max_of in *. rewrite fold_left_app, length_app. cbn [fold_left length].
  rewrite Nat.add_1_r.
  assert (Ha : a ≡ Num.of_nat (length ids)).
  { apply Hids. rewrite lookup_app_r by lia. now rewrite Nat.sub_diag. }
  assert (Hprefix : ∀ i b, ids !! i = Some b → b ≡ Num.of_nat i).
  { intros i b Hb. apply Hids. rewrite lookup_app_l; [exact Hb|].
    eapply lookup_lt_Some; eassumption. }
  specialize (IH Hprefix).
  etransitivity; [apply (max_equiv _ _ _ _ IH Ha)|].
  destruct (length ids) as [|m]; [reflexivity|].
  unfold Num.max, Num.of_nat, Num.of_Z.
  assert (Hlt : (Fin (inject_Z (Z.of_nat m)) <? Fin (inject_Z (Z.of_nat (S m))))%num = true).
  { apply lt_fin. rewrite <- Zlt_Qlt. lia. }
  rewrite Hlt. reflexivity.
Qed.

Lemma colorAt_index (q : Q) (j : nat) :
  q == inject_Z (Z.of_nat j) → colorAt (Fin q) = CAR_COLORS !! j.
Proof.
  intros Hq. unfold colorAt.
  rewrite (array_index_integer q (Z.of_nat j) Hq) by lia.
  cbn [mbind option_bind]. now rewrite Nat2Z.id.
Qed.

(** The colour of the car of index [i] is defined. *)
Lemma colorAt_rem (q : Q) (i : nat) :
  q == inject_Z (Z.of_nat i) →
  ∃ color, colorAt (Num.rem (Fin q) (Num.of_nat (length CAR_COLORS))) = Some color ∧
           CAR_COLORS !! (i mod 7)%nat = Some color.
Proof.
  intros Hq.
  destruct (rem_index q i 7 ltac:(lia) Hq) as (q' & Hrem & Hq').
  change (Num.of_nat (length CAR_COLORS)) with (Fin (inject_Z 7)). rewrite Hrem.
  assert (Hmod : (Z.of_nat i mod 7)%Z = Z.of_nat (i mod 7)).
  { rewrite Nat2Z.inj_mod. reflexivity. }
  rewrite Hmod in Hq'. rewrite (colorAt_index q' (i mod 7) Hq').
  destruct (lookup_lt_is_Some_2 CAR_COLORS (i mod 7)) as [color Hcolor].
  { cbn [length CAR_COLORS]. apply Nat.mod_upper_bound. lia. }
  exists color. split; exact Hcolor.
Qed.

Lemma lane_rem (q : Q) (i : nat) :
  q == inject_Z (Z.of_nat i) → Num.rem (Fin q) (Fin 3) ≡ Num.of_nat (i mod 3).
Proof.
  intros Hq.
  destruct (rem_index q i 3 ltac:(lia) Hq) as (q' & Hrem & Hq').
  change (Fin 3) with (Fin (inject_Z 3)). rewrite Hrem.
  change (q' == inject_Z (Z.of_nat (i mod 3))).
  rewrite Nat2Z.inj_mod. exact Hq'.
Qed.

(** ** The initial cars *)

Lemma initialCarsFrom_cars (random : nat → number) (speeds : list number) :
  ∀ index, ∃ cars,
    initialCarsFrom index random speeds = Some cars ∧
    map speedKmh cars = speeds ∧
    ∀ i c, cars !! i = Some c →
      id c = Num.of_nat (index + i) ∧
      x c = (random (index + i)%nat * Fin 800)%num ∧
      lane c ≡ Num.of_nat ((index + i) mod 3) ∧
      CAR_COLORS !! ((index + i) mod 7)%nat = Some (color c).
Proof.
  induction speeds as [|speed speeds IH]; intros index; cbn [initialCarsFrom].
  - exists []. split; [reflexivity|]. split; [reflexivity|].
    intros i c Hc. discriminate.
  - destruct (colorAt_rem (inject_Z (Z.of_nat index)) index (Qeq_refl _))
      as (col & Hcolor & Hlookup).
    change (Num.of_nat index) with (Fin (inject_Z (Z.of_nat index))).
    rewrite Hcolor. cbn [mbind option_bind].
    destruct (IH (S index)) as (rest & Hrest & Hspeeds & Hcars).
    rewrite Hrest. cbn [mbind option_bind]. eexists. split; [reflexivity|].
    split; [cbn [map speedKmh]; now rewrite Hspeeds|].
    intros [|i] c Hc.
    + injection Hc as <-. rewrite Nat.add_0_r. cbn [id x lane color].
      repeat split; [|exact Hlookup].
      apply (lane_rem (inject_Z (Z.of_nat index)) index (Qeq_refl _)).
    + replace (index + S i)%nat with (S index + i)%nat by lia.
      apply Hcars. exact Hc.
Qed.

Lemma initial_cars_are_indexed_aux (random : nat → number) (speeds : list number) :
  ∃ cars,
    initialCars random speeds = Some cars ∧ indexed cars ∧
    map speedKmh cars = speeds.
Proof.
  destruct (initialCarsFrom_cars random speeds 0) as (cars & Hinit & Hspeeds & Hcars).
  exists cars. split; [exact Hinit|]. split; [|exact Hspeeds].
  intros i c Hc. destruct (Hcars i c Hc) as (Hid & _ & Hlane & Hcolor).
  cbn [Nat.add] in *. rewrite Hid. split; [reflexivity|]. split; assumption.
Qed.

(** [X19] The initial cars always exist and stand in the order of the
    speeds: whatever the list of speeds and the random numbers, the
    initializer returns one car per speed, with that speed, the car of
    index [i] having the [id] [i], the lane [i % 3], a defined colour
    [CAR_COLORS[i % 7]] and the position [Math.random() * 800]. *)
Theorem initial_cars_are_indexed (random : nat → number) (speeds : list number) :
  ∃ cars,
    initialCars random speeds = Some cars ∧ indexed cars ∧
    map speedKmh cars = speeds ∧
    ∀ i c, cars !! i = Some c → x c = (random i * Fin 800)%num.
Proof.
  destruct (initialCarsFrom_cars random speeds 0) as (cars & Hinit & Hspeeds & Hcars).
  exists cars. split; [exact Hinit|]. split; [|split; [exact Hspeeds|]].
  - intros i c Hc. destruct (Hcars i c Hc) as (Hid & _ & Hlane & Hcolor).
    cbn [Nat.add] in *. rewrite Hid. split; [reflexivity|]. split; assumption.
  - intros i c Hc. now destruct (Hcars i c Hc) as (_ & Hx & _).
Qed.

(** ** [addCar] and [removeCar] *)

Lemma indexed_ids (cars : list Car) :
  indexed cars → ∀ i a, map id cars !! i = Some a → a ≡ Num.of_nat i.
Proof.
  intros Hidx i a Ha. rewrite list_lookup_fmap in Ha.
  destruct (cars !! i) as [c|] eqn:Hc; [|discriminate].
  injection Ha as <-. now destruct (Hidx i c Hc).
Qed.

(** The id of the car [addCar] creates is the number of cars. *)
Lemma addCar_newId (prev : list Car) :
  indexed prev →
  ∃ q, (if (0 <? length prev)%nat
        then (Num.max_of (map id prev) + Fin 1)%num else Fin 0) = Fin q ∧
       q == inject_Z (Z.of_nat (length prev)).
Proof.
  intros Hidx. pose proof (max_of_indices (map id prev) (indexed_ids prev Hidx)) as Hmax.
  rewrite length_map in Hmax.
  destruct (length prev) as [|m]; [exists 0; split; reflexivity|].
  cbn [Nat.ltb Nat.leb].
  destruct (Num.max_of (map id prev)) as [a| | |]; try contradiction.
  change (a == inject_Z (Z.of_nat m)) in Hmax.
  exists (a + 1). split; [reflexivity|].
  rewrite Hmax, Nat2Z.inj_succ. unfold Z.succ. now rewrite inject_Z_plus.
Qed.

Lemma addCar_indexed (prev : list Car) :
  indexed prev → (length prev < 10)%nat →
  ∃ c, addCar prev = Some (prev ++ [c]) ∧ indexed (prev ++ [c]) ∧
       speedKmh c = Fin 80 ∧ x c = Fin (-100).
Proof.
  intros Hidx Hlen. unfold addCar.
  destruct (Nat.leb_spec 10 (length prev)) as [|_]; [lia|].
  destruct (addCar_newId prev Hidx) as (q & Hid & Hq). rewrite Hid.
  destruct (colorAt_rem q (length prev) Hq) as (col & Hcolor & Hlookup).
  rewrite Hcolor. cbn [mbind option_bind]. eexists.
  split; [reflexivity|]. split; [|split; reflexivity].
  intros i c Hc. destruct (Nat.lt_ge_cases i (length prev)) as [Hi|Hi].
  - rewrite lookup_app_l in Hc by exact Hi. now apply Hidx.
  - rewrite lookup_app_r in Hc by exact Hi.
    destruct (i - length prev)%nat as [|j] eqn:Hj; [|discriminate].
    injection Hc as <-. assert (i = length prev) as -> by lia.
    cbn [id lane color]. split; [exact Hq|]. split; [|exact Hlookup].
    apply (lane_rem _ (length prev) (Qeq_refl _)).
Qed.

(** [X20] [addCar] appends one car and keeps the order: on cars that stand
    in the order of their creation and are fewer than ten, it appends a car
    at 80 km/h and [x = -100] whose [id], lane and colour continue that
    order, and leaves the others as they are; from ten cars on it changes
    nothing. *)
Theorem addCar_appends_in_order (prev : list Car) :
  indexed prev →
  ((length prev < 10)%nat →
   ∃ c, addCar prev = Some (prev ++ [c]) ∧ indexed (prev ++ [c]) ∧
        speedKmh c = Fin 80 ∧ x c = Fin (-100)) ∧
  ((10 <= length prev)%nat → addCar prev = Some prev).
Proof.
  intros Hidx. split.
  - now apply addCar_indexed.
  - intros Hlen. unfold addCar.
    destruct (Nat.leb_spec 10 (length prev)); [reflexivity|lia].
Qed.

Lemma threeCars_indexed : indexed threeCars.
Proof.
  intros [|[|[|i]]] c Hc; try discriminate; injection Hc as <-;
    (split; [reflexivity|split; reflexivity]).
Qed.

Lemma addCar_appends_in_order_witness :
  ∃ c, addCar threeCars = Some (threeCars ++ [c]) ∧ indexed (threeCars ++ [c]) ∧
       speedKmh c = Fin 80 ∧ x c = Fin (-100).
Proof.
  apply (proj1 (addCar_appends_in_order threeCars threeCars_indexed)).
  cbn [length threeCars]. lia.
Defined.

Lemma addCar_Some (prev next : list Car) :
  addCar prev = Some next → (length prev < 10)%nat →
  ∃ c, next = prev ++ [c].
Proof.
  unfold addCar. destruct (Nat.leb_spec 10 (length prev)); [lia|].
  destruct (colorAt _) as [col|]; [|discriminate].
  cbn [mbind option_bind]. intros [= <-] _. eexists. reflexivity.
Qed.

(** [X21] [removeCar] undoes [addCar]: when [addCar] has added a car to
    fewer than ten cars, [removeCar] gives the former cars back; in
    general [removeCar] drops the last car and nothing else, and leaves the
    empty list empty. *)
Theorem removeCar_undoes_addCar (prev next : list Car) :
  (addCar prev = Some next → (length prev < 10)%nat → removeCar next = prev) ∧
  (∀ c, removeCar (prev ++ [c]) = prev) ∧
  removeCar [] = [].
Proof.
  assert (Hdrop : ∀ (l : list Car) c, removeCar (l ++ [c]) = l).
  { intros l c. unfold removeCar. rewrite length_app. cbn [length].
    replace (length l + 1 - 1)%nat with (length l) by lia.
    now rewrite take_app_length. }
  split; [|split; [apply Hdrop|reflexivity]].
  intros Hadd Hlen. destruct (addCar_Some prev next Hadd Hlen) as [c ->].
  apply Hdrop.
Qed.

Lemma removeCar_undoes_addCar_witness :
  removeCar (threeCars ++ [mkCar (Fin (2 + 1)) (Fin (-100)) (Num.rem (Fin 3) (Fin 3))
                             "#eab308" (Fin 80)]) = threeCars.
Proof.
  apply (proj1 (removeCar_undoes_addCar threeCars _)).
  - vm_compute. reflexivity.
  - cbn [length threeCars]. lia.
Defined.

(** ** [updateCarSpeed] and [randomizeSpeeds] *)

Lemma strict_eq_of_nat (a b : number) (i j : nat) :
  a ≡ Num.of_nat i → b ≡ Num.of_nat j →
  Num.strict_eq a b = true ↔ i = j.
Proof.
  destruct a as [x| | |], b as [y| | |]; try contradiction.
  intros Ha Hb. change (x == inject_Z (Z.of_nat i)) in Ha.
  change (y == inject_Z (Z.of_nat j)) in Hb.
  cbn [Num.strict_eq]. rewrite Qeq_bool_iff, Ha, Hb, inject_Z_injective. lia.
Qed.

Lemma updateCarSpeed_at (targetId newSpeed : number) (prev : list Car) (i : nat) :
  updateCarSpeed targetId newSpeed prev !! i
  = (fun c => if Num.strict_eq (id c) targetId then withSpeed c newSpeed else c)
      <$> prev !! i.
Proof. unfold updateCarSpeed. apply list_lookup_fmap. Qed.

(** A slider changes its own car only. *)
Lemma updateCarSpeed_indexed_at (prev : list Car) (j : nat) (target : Car)
    (newSpeed : number) :
  indexed prev → prev !! j = Some target →
  ∀ i c, prev !! i = Some c →
    updateCarSpeed (id target) newSpeed prev !! i
    = Some (if Nat.eqb i j then withSpeed c newSpeed else c).
Proof.
  intros Hidx Hj i c Hc. rewrite updateCarSpeed_at, Hc. cbn [fmap option_fmap option_map].
  destruct (Hidx i c Hc) as [Hi _]. destruct (Hidx j target Hj) as [Hjid _].
  pose proof (strict_eq_of_nat _ _ i j Hi Hjid) as Heq.
  destruct (Nat.eqb_spec i j) as [E|E].
  - now rewrite (proj2 Heq E).
  - destruct (Num.strict_eq (id c) (id target)); [|reflexivity].
    exfalso. apply E. now apply Heq.
Qed.

(** [X22] A speed slider changes its own car and no other: on cars that
    stand in the order of their creation, [updateCarSpeed] called with the
    [id] of the car of index [j] gives that car the new speed and leaves
    every other car, and every other field, as it is. *)
Theorem updateCarSpeed_changes_one_car (prev : list Car) (j : nat) (target : Car)
    (newSpeed : number) :
  indexed prev → prev !! j = Some target →
  length (updateCarSpeed (id target) newSpeed prev) = length prev ∧
  indexed (updateCarSpeed (id target) newSpeed prev) ∧
  ∀ i c, prev !! i = Some c →
    updateCarSpeed (id target) newSpeed prev !! i
    = Some (if Nat.eqb i j then withSpeed c newSpeed else c).
Proof.
  intros Hidx Hj. split; [apply length_map|]. split.
  - intros i c' Hc'. rewrite updateCarSpeed_at in Hc'.
    destruct (prev !! i) as [c|] eqn:Hc; [|discriminate].
    injection Hc' as <-. specialize (Hidx i c Hc).
    now destruct (Num.strict_eq (id c) (id target)).
  - now apply updateCarSpeed_indexed_at.
Qed.

Lemma updateCarSpeed_changes_one_car_witness :
  length (updateCarSpeed (Fin 1) (Fin 95) threeCars) = length threeCars ∧
  indexed (updateCarSpeed (Fin 1) (Fin 95) threeCars) ∧
  ∀ i c, threeCars !! i = Some c →
    updateCarSpeed (Fin 1) (Fin 95) threeCars !! i
    = Some (if Nat.eqb i 1 then withSpeed c (Fin 95) else c).
Proof.
  apply (updateCarSpeed_changes_one_car threeCars 1
           (mkCar (Fin 1) (Fin 0) (Fin 1) "#3b82f6" (Fin 110)) (Fin 95)
           threeCars_indexed eq_refl).
Defined.

Lemma equal_when_neither_greater (a b : number) :
  Num.is_nan a = false → Num.is_nan b = false →
  (a >? b)%num = false → (b >? a)%num = false → a ≡ b.
Proof.
  destruct a as [x| | |], b as [y| | |]; try discriminate; intros _ _;
    try (cbn; discriminate); try (intros; exact I).
  rewrite !gt_fin_false. intros H1 H2. change (x == y). lra.
Qed.

(** [X23] The car set fastest becomes the target: on cars that stand in
    the order of their creation and whose speeds are not [NaN], when the
    slider of the car of index [j] is set to a speed that no other car
    exceeds, the true speed of the next measurement is that speed. *)
Theorem updated_car_becomes_target (radarParams : RadarParams) (prev : list Car)
    (j : nat) (target : Car) (newSpeed : number) :
  indexed prev → prev !! j = Some target →
  speeds_defined prev → Num.is_nan newSpeed = false →
  (∀ i c, prev !! i = Some c → i ≠ j → (speedKmh c >? newSpeed)%num = false) →
  realTargetSpeed (measure radarParams (updateCarSpeed (id target) newSpeed prev))
  ≡ newSpeed.
Proof.
  intros Hidx Hj Hdef Hnan Hothers.
  set (next := updateCarSpeed (id target) newSpeed prev).
  assert (Hnext : ∀ i c, prev !! i = Some c →
            next !! i = Some (if Nat.eqb i j then withSpeed c newSpeed else c))
    by now apply updateCarSpeed_indexed_at.
  assert (Hdef' : speeds_defined next).
  { apply Forall_lookup. intros i c' Hc'. unfold next in Hc'.
    rewrite updateCarSpeed_at in Hc'.
    destruct (prev !! i) as [c|] eqn:Hc; [|discriminate]. injection Hc' as <-.
    destruct (Num.strict_eq (id c) (id target)); [exact Hnan|].
    unfold speeds_defined in Hdef. rewrite Forall_lookup in Hdef. exact (Hdef i c Hc). }
  pose proof (Hnext j target Hj) as Hjnext. rewrite Nat.eqb_refl in Hjnext.
  destruct next as [|first others] eqn:Enext; [discriminate|].
  destruct (reduce_faster_last others first Hdef') as (i & Hi & Hmax & _).
  unfold measure. cbn [fastestCar realTargetSpeed].
  set (best := fold_left faster others first) in *.
  pose proof (Hmax j _ Hjnext) as Hle. cbn [withSpeed speedKmh] in Hle.
  assert (Hge : (speedKmh best >? newSpeed)%num = false).
  { destruct (prev !! i) as [c|] eqn:Hc.
    - rewrite (Hnext i c Hc) in Hi. injection Hi as Hi.
      destruct (Nat.eqb_spec i j) as [E|E]; rewrite <- Hi.
      + apply not_gt_refl.
      + exact (Hothers i c Hc E).
    - exfalso. apply lookup_ge_None in Hc.
      apply lookup_lt_Some in Hi. rewrite <- Enext in Hi. unfold next in Hi.
      unfold updateCarSpeed in Hi. rewrite length_map in Hi. lia. }
  apply equal_when_neither_greater; try assumption.
  unfold speeds_defined in Hdef'. rewrite Forall_lookup in Hdef'. exact (Hdef' i best Hi).
Qed.

Lemma updated_car_becomes_target_witness :
  realTargetSpeed (measure defaultRadar (updateCarSpeed (Fin 2) (Fin 130) threeCars))
  ≡ Fin 130.
Proof.
  apply (updated_car_becomes_target defaultRadar threeCars 2
           (mkCar (Fin 2) (Fin 0) (Fin 2) "#22c55e" (Fin 60)) (Fin 130)
           threeCars_indexed eq_refl).
  - repeat constructor.
  - reflexivity.
  - intros [|[|[|i]]] c Hc Hne; try discriminate; try lia;
      injection Hc as <-; reflexivity.
Defined.

Lemma randomizeSpeeds_at (random : nat → number) (prev : list Car) (i : nat) :
  randomizeSpeeds random prev !! i
  = (fun c => withSpeed c (Num.floor (random i * Fin 100) + Fin 40)%num)
      <$> prev !! i.
Proof. unfold randomizeSpeeds. apply list_lookup_imap. Qed.

Lemma random_speed_range (q : Q) :
  0 <= q → q < 1 →
  ∃ s z, (Num.floor (Fin q * Fin 100) + Fin 40)%num = Fin s ∧
         s == inject_Z z ∧ (40 <= z <= 139)%Z.
Proof.
  intros H0 H1. cbn [Num.mul Num.floor Num.add].
  exists (inject_Z (Qfloor (q * 100)) + 40), (Qfloor (q * 100) + 40)%Z.
  split; [reflexivity|]. split; [now rewrite inject_Z_plus|].
  assert (Hlo : (0 <= Qfloor (q * 100))%Z).
  { change 0%Z with (Qfloor 0). apply Qfloor_resp_le. lra. }
  assert (Hhi : (Qfloor (q * 100) < 100)%Z).
  { rewrite Zlt_Qlt. eapply Qle_lt_trans; [apply Qfloor_le|].
    change (inject_Z 100) with 100. lra. }
  lia.
Qed.

(** [X24] Randomized speeds are whole numbers from 40 to 139: when every
    [Math.random()] lies in [0, 1), [randomizeSpeeds] keeps the number of
    cars and gives every car an integer speed between 40 and 139 km/h,
    its other fields unchanged. *)
Theorem randomizeSpeeds_range (noise : nat → Q) (prev : list Car) :
  (∀ i, 0 <= noise i ∧ noise i < 1) →
  let next := randomizeSpeeds (fun i => Fin (noise i)) prev in
  length next = length prev ∧
  ∀ i c, prev !! i = Some c →
    ∃ s z, next !! i = Some (withSpeed c (Fin s)) ∧
           s == inject_Z z ∧ (40 <= z <= 139)%Z.
Proof.
  intros Hnoise next. split; [apply length_imap|].
  intros i c Hc. unfold next. rewrite randomizeSpeeds_at, Hc.
  destruct (Hnoise i) as [H0 H1].
  destruct (random_speed_range (noise i) H0 H1) as (s & z & Hs & Hz & Hrange).
  exists s, z. cbn [fmap option_fmap option_map]. rewrite Hs. auto.
Qed.

Lemma randomizeSpeeds_range_witness :
  let next := randomizeSpeeds (fun i => Fin ((fun _ => 0.37) i)) threeCars in
  length next = length threeCars ∧
  ∀ i c, threeCars !! i = Some c →
    ∃ s z, next !! i = Some (withSpeed c (Fin s)) ∧
           s == inject_Z z ∧ (40 <= z <= 139)%Z.
Proof.
  apply (randomizeSpeeds_range (fun _ => 0.37) threeCars).
  intros i. split; [discriminate|reflexivity].
Defined.

(** ** The states [App] can reach *)

Lemma updateCarSpeed_keeps_indexed (targetId newSpeed : number) (prev : list Car) :
  indexed prev → indexed (updateCarSpeed targetId newSpeed prev).
Proof.
  intros Hidx i c' Hc'. rewrite updateCarSpeed_at in Hc'.
  destruct (prev !! i) as [c|] eqn:Hc; [|discriminate].
  injection Hc' as <-. specialize (Hidx i c Hc).
  now destruct (Num.strict_eq (id c) targetId).
Qed.

Lemma randomizeSpeeds_keeps_indexed (random : nat → number) (prev : list Car) :
  indexed prev → indexed (randomizeSpeeds random prev).
Proof.
  intros Hidx i c' Hc'. rewrite randomizeSpeeds_at in Hc'.
  destruct (prev !! i) as [c|] eqn:Hc; [|discriminate].
  injection Hc' as <-. exact (Hidx i c Hc).
Qed.

Lemma removeCar_keeps_indexed (prev : list Car) :
  indexed prev → indexed (removeCar prev).
Proof.
  intros Hidx i c Hc. unfold removeCar in Hc.
  apply lookup_take_Some in Hc as [Hc _]. exact (Hidx i c Hc).
Qed.

Lemma handle_indexed (action : Action) (prev : list Car) :
  indexed prev →
  ∃ next, handle action prev = Some next ∧ indexed next ∧
          (length next <= Nat.max 10 (length prev))%nat.
Proof.
  intros Hidx. destruct action as [targetId newSpeed| | |random]; cbn [handle].
  - eexists. split; [reflexivity|]. split; [now apply updateCarSpeed_keeps_indexed|].
    unfold updateCarSpeed. rewrite length_map. lia.
  - destruct (Nat.lt_ge_cases (length prev) 10) as [Hlen|Hlen].
    + destruct (addCar_indexed prev Hidx Hlen) as (c & Hadd & Hnext & _).
      exists (prev ++ [c]). split; [exact Hadd|]. split; [exact Hnext|].
      rewrite length_app. cbn [length]. lia.
    + exists prev. split; [|split; [exact Hidx|lia]].
      unfold addCar. destruct (Nat.leb_spec 10 (length prev)); [reflexivity|lia].
  - eexists. split; [reflexivity|]. split; [now apply removeCar_keeps_indexed|].
    unfold removeCar. rewrite length_take. lia.
  - eexists. split; [reflexivity|]. split; [now apply randomizeSpeeds_keeps_indexed|].
    unfold randomizeSpeeds. rewrite length_imap. lia.
Qed.

(** [X25] The cars always stand in the order of their creation: in every
    state [App] can reach from any list of speeds, the car of index [i] has
    the [id] [i], the lane [i % 3] and the colour [CAR_COLORS[i % 7]]; so
    no two cars share an [id], every handler is defined (no car ever gets
    an undefined colour), and there are never more cars than ten or the
    initial number. *)
Theorem reachable_cars_are_indexed (random : nat → number) (speeds : list number)
    (cars : list Car) :
  Reachable random speeds cars →
  indexed cars ∧
  (length cars <= Nat.max 10 (length speeds))%nat ∧
  (∀ action, ∃ next, handle action cars = Some next) ∧
  (∀ i j c d, cars !! i = Some c → cars !! j = Some d →
     Num.strict_eq (id c) (id d) = true → i = j).
Proof.
  intros Hreach.
  assert (Hinv : indexed cars ∧ (length cars <= Nat.max 10 (length speeds))%nat).
  { induction Hreach as [cars Hinit|action cars cars' _ [IHidx IHlen] Hstep].
    - destruct (initial_cars_are_indexed_aux random speeds)
        as (cars0 & Hinit0 & Hidx & Hspeeds).
      assert (cars = cars0) as -> by congruence.
      split; [exact Hidx|]. rewrite <- Hspeeds, length_map. lia.
    - destruct (handle_indexed action cars IHidx) as (next & Hnext & Hidx & Hlen).
      assert (cars' = next) as -> by congruence.
      split; [exact Hidx|lia]. }
  destruct Hinv as [Hidx Hlen]. split; [exact Hidx|]. split; [exact Hlen|]. split.
  - intros action. destruct (handle_indexed action cars Hidx) as (next & Hnext & _).
    now exists next.
  - intros i j c d Hc Hd Heq.
    destruct (Hidx i c Hc) as [Hi _]. destruct (Hidx j d Hd) as [Hj _].
    now apply (strict_eq_of_nat _ _ i j Hi Hj).
Qed.

Lemma reachable_cars_are_indexed_witness :
  indexed threeCars ∧
  (length threeCars <= Nat.max 10 (length [Fin 80; Fin 110; Fin 60]))%nat ∧
  (∀ action, ∃ next, handle action threeCars = Some next) ∧
  (∀ i j c d, threeCars !! i = Some c → threeCars !! j = Some d →
     Num.strict_eq (id c) (id d) = true → i = j).
Proof.
  apply (reachable_cars_are_indexed noNoise [Fin 80; Fin 110; Fin 60] threeCars).
  apply reach_initial. reflexivity.
Defined.

(** * The positions of [HighwayScene] *)

(** ** The [Map] *)

Section PositionMaps.

Implicit Types (m : PositionMap) (key k v : number).

Lemma same_value_zero_refl k : Num.same_value_zero k k = true.
Proof. destruct k as [q| | |]; try reflexivity. apply Qeq_bool_refl. Qed.

Lemma same_value_zero_sym k k' :
  Num.same_value_zero k k' = Num.same_value_zero k' k.
Proof.
  destruct k as [q| | |], k' as [q'| | |]; try reflexivity.
  apply Qeq_bool_comm.
Qed.

Lemma same_value_zero_trans k1 k2 k3 :
  Num.same_value_zero k1 k2 = true → Num.same_value_zero k2 k3 = true →
  Num.same_value_zero k1 k3 = true.
Proof.
  destruct k1 as [a| | |], k2 as [b| | |], k3 as [c| | |];
    try discriminate; try reflexivity.
  cbn. rewrite !Qeq_bool_iff. intros H1 H2. now rewrite H1.
Qed.

(** Two keys that are the same are the same for every third key. *)
Lemma same_value_zero_eq k k' key :
  Num.same_value_zero k k' = true →
  Num.same_value_zero k key = Num.same_value_zero k' key.
Proof.
  intros H. destruct (Num.same_value_zero k' key) eqn:H'.
  - now apply same_value_zero_trans with k'.
  - destruct (Num.same_value_zero k key) eqn:H''; [|reflexivity].
    rewrite <- H'. symmetry. apply same_value_zero_trans with k; [|exact H''].
    now rewrite same_value_zero_sym.
Qed.

(** [map.get] after [map.set]. *)
Lemma mapGet_mapSet m k v key :
  mapGet (mapSet m k v) key
  = if Num.same_value_zero k key then Some v else mapGet m key.
Proof.
  induction m as [|[k0 v0] m IH]; cbn [mapSet mapGet].
  - now destruct (Num.same_value_zero k key).
  - destruct (Num.same_value_zero k0 k) eqn:H0; cbn [mapGet].
    + rewrite (same_value_zero_eq k0 k key H0).
      now destruct (Num.same_value_zero k key).
    + destruct (Num.same_value_zero k0 key) eqn:H1; [|exact IH].
      destruct (Num.same_value_zero k key) eqn:H2; [|reflexivity].
      exfalso. rewrite same_value_zero_sym in H2.
      rewrite (same_value_zero_trans _ _ _ H1 H2) in H0. discriminate.
Qed.

Lemma mapGet_advanceCar (canvasWidth : number) m (car : Car) key :
  mapGet (advanceCar canvasWidth m car) key
  = if Num.same_value_zero (id car) key
    then Some (nextX canvasWidth
                 (match mapGet m (id car) with Some p => p | None => x car end) car)
    else mapGet m key.
Proof. unfold advanceCar. now rewrite mapGet_mapSet. Qed.

End PositionMaps.

(** ** The first effect *)

Lemma initPositions_has (random : nat → number) (cars : list Car) :
  ∀ next positions,
  let result := fst (initPositions random next cars positions) in
  (∀ key v, mapGet positions key = Some v → mapGet result key = Some v) ∧
  (∀ c, In c cars → mapHas result (id c) = true).
Proof.
  induction cars as [|car cars IH]; intros next positions; cbn [initPositions].
  - split; [auto|]. intros c [].
  - destruct (mapHas positions (id car)) eqn:Hhas.
    + destruct (IH next positions) as [Hkeep Hall]. split; [exact Hkeep|].
      intros c [<-|Hc]; [|now apply Hall].
      unfold mapHas in *. destruct (mapGet positions (id car)) as [v|] eqn:Hv;
        [|discriminate].
      now rewrite (Hkeep _ _ Hv).
    + destruct (IH (S next) (mapSet positions (id car) (random next * Fin 800)%num))
        as [Hkeep Hall].
      split.
      * intros key v Hv. apply Hkeep. rewrite mapGet_mapSet.
        destruct (Num.same_value_zero (id car) key) eqn:Hsame; [|exact Hv].
        exfalso. unfold mapHas in Hhas.
        assert (Hget : mapGet positions (id car) = mapGet positions key).
        { clear - Hsame. induction positions as [|[k0 v0] m IHm]; [reflexivity|].
          cbn [mapGet]. rewrite same_value_zero_sym in Hsame.
          rewrite (same_value_zero_sym k0 (id car)), (same_value_zero_sym k0 key).
          rewrite <- (same_value_zero_eq _ _ k0 Hsame).
          destruct (Num.same_value_zero key k0); [reflexivity|exact IHm]. }
        rewrite Hget, Hv in Hhas. discriminate.
      * intros c [<-|Hc]; [|now apply Hall].
        unfold mapHas.
        erewrite Hkeep; [reflexivity|].
        rewrite mapGet_mapSet, same_value_zero_refl. reflexivity.
Qed.

(** [X26] Known cars are not reset: after the first effect every car has a
    position in the map, and every position that was in the map before is
    still there, unchanged. *)
Theorem positions_are_kept (random : nat → number) (next : nat)
    (cars : list Car) (positions : PositionMap) :
  let result := fst (initPositions random next cars positions) in
  (∀ key v, mapGet positions key = Some v → mapGet result key = Some v) ∧
  (∀ c, In c cars → mapHas result (id c) = true).
Proof. apply initPositions_has. Qed.

(** ** One frame *)

Lemma renderFrame_other (canvasWidth : number) (cars : list Car) (key : number) :
  (∀ c, In c cars → Num.same_value_zero (id c) key = false) →
  ∀ positions, mapGet (renderFrame canvasWidth cars positions) key
               = mapGet positions key.
Proof.
  unfold renderFrame. induction cars as [|car cars IH]; intros Hnone positions;
    cbn [fold_left]; [reflexivity|].
  rewrite IH by (intros c Hc; apply Hnone; now right).
  rewrite mapGet_advanceCar, (Hnone car); [reflexivity|now left].
Qed.

Lemma renderFrame_app (canvasWidth : number) (before after : list Car)
    (positions : PositionMap) :
  renderFrame canvasWidth (before ++ after) positions
  = renderFrame canvasWidth after (renderFrame canvasWidth before positions).
Proof. unfold renderFrame. apply fold_left_app. Qed.

Lemma indexed_distinct (cars : list Car) (i j : nat) (c d : Car) :
  indexed cars → cars !! i = Some c → cars !! j = Some d → i ≠ j →
  Num.same_value_zero (id d) (id c) = false.
Proof.
  intros Hidx Hc Hd Hne.
  destruct (Hidx i c Hc) as [Hi _]. destruct (Hidx j d Hd) as [Hj _].
  pose proof (strict_eq_of_nat _ _ j i Hj Hi) as Heq.
  destruct (id d) as [a| | |], (id c) as [b| | |]; try contradiction.
  cbn [Num.same_value_zero] in *.
  destruct (Num.strict_eq (Fin a) (Fin b)); [|reflexivity].
  exfalso. apply Hne. symmetry. now apply Heq.
Qed.

(** [X27] Every car moves on its own: for cars that stand in the order of
    their creation, one frame takes the car of index [i] from its position
    in the map (from [car.x] when it has none) to that position plus
    [0.03 * speedKmh], or to -100 when this is beyond [canvas.width + 100],
    whatever the other cars do. *)
Theorem frame_advances_each_car (canvasWidth : number) (cars : list Car)
    (positions : PositionMap) (i : nat) (car : Car) :
  indexed cars → cars !! i = Some car →
  mapGet (renderFrame canvasWidth cars positions) (id car)
  = Some (nextX canvasWidth
            (match mapGet positions (id car) with Some p => p | None => x car end)
            car).
Proof.
  intros Hidx Hcar.
  rewrite <- (take_drop_middle cars i car Hcar), renderFrame_app.
  change (renderFrame canvasWidth (car :: drop (S i) cars) ?m)
    with (renderFrame canvasWidth (drop (S i) cars) (advanceCar canvasWidth m car)).
  rewrite renderFrame_other.
  - rewrite mapGet_advanceCar, same_value_zero_refl, renderFrame_other; [reflexivity|].
    intros d Hd. apply list_elem_of_In, list_elem_of_lookup in Hd as [j Hj].
    apply lookup_take_Some in Hj as [Hj Hlt].
    apply (indexed_distinct cars i j car d Hidx Hcar Hj). lia.
  - intros d Hd. apply list_elem_of_In, list_elem_of_lookup in Hd as [j Hj].
    rewrite lookup_drop in Hj.
    apply (indexed_distinct cars i (S i + j) car d Hidx Hcar Hj). lia.
Qed.

Lemma frame_advances_each_car_witness :
  mapGet (renderFrame (Fin 800) threeCars [(Fin 1, Fin 899)]) (Fin 1)
  = Some (nextX (Fin 800)
            (match mapGet [(Fin 1, Fin 899)] (Fin 1) with
             | Some p => p | None => Fin 0 end)
            (mkCar (Fin 1) (Fin 0) (Fin 1) "#3b82f6" (Fin 110))).
Proof.
  apply (frame_advances_each_car (Fin 800) threeCars [(Fin 1, Fin 899)] 1
           (mkCar (Fin 1) (Fin 0) (Fin 1) "#3b82f6" (Fin 110))
           threeCars_indexed eq_refl).
Defined.

Lemma nextX_bounded (w : Q) (currentX : number) (car : Car) :
  -200 <= w → (nextX (Fin w) currentX car >? Fin w + Fin 100)%num = false.
Proof.
  intros Hw. unfold nextX.
  destruct (currentX + speedKmh car * Fin 0.03 >? Fin w + Fin 100)%num eqn:Hcmp;
    [|exact Hcmp].
  cbn [Num.add]. apply gt_fin_false. lra.
Qed.

Lemma advanceCar_bounded (w : Q) (positions : PositionMap) (car : Car) :
  -200 <= w → positionsBounded (Fin w) positions →
  positionsBounded (Fin w) (advanceCar (Fin w) positions car).
Proof.
  intros Hw Hb key v Hv. rewrite mapGet_advanceCar in Hv.
  destruct (Num.same_value_zero (id car) key).
  - injection Hv as <-. now apply nextX_bounded.
  - exact (Hb key v Hv).
Qed.

(** A key that has a position keeps one through a frame. *)
Lemma renderFrame_keeps_keys (result : PositionMap) (cars : list Car) (key : number)
    (positions : PositionMap) (canvasWidth : number) :
  result = fold_left (advanceCar canvasWidth) cars positions →
  (∃ v, mapGet positions key = Some v) → ∃ v, mapGet result key = Some v.
Proof.
  intros ->. revert positions.
  induction cars as [|car cars IH]; intros positions Hhas; cbn [fold_left];
    [exact Hhas|].
  apply IH. rewrite mapGet_advanceCar.
  destruct (Num.same_value_zero (id car) key); [eexists; reflexivity|exact Hhas].
Qed.

(** [X28] No car leaves the road for good: for a finite canvas width of
    at least -200 (it is 800), when no position of the map is beyond
    [canvas.width + 100] before a frame, none is after it, and every car
    that is drawn has a position. *)
Theorem frame_keeps_positions_bounded (w : Q) (cars : list Car)
    (positions : PositionMap) :
  -200 <= w → positionsBounded (Fin w) positions →
  positionsBounded (Fin w) (renderFrame (Fin w) cars positions) ∧
  ∀ c, In c cars → mapHas (renderFrame (Fin w) cars positions) (id c) = true.
Proof.
  intros Hw. revert positions. unfold renderFrame.
  induction cars as [|car cars IH]; intros positions Hb; cbn [fold_left].
  - split; [exact Hb|]. intros c [].
  - destruct (IH _ (advanceCar_bounded w positions car Hw Hb)) as [Hb' Hall].
    split; [exact Hb'|]. intros c [<-|Hc]; [|now apply Hall].
    unfold mapHas.
    destruct (renderFrame_keeps_keys (fold_left (advanceCar (Fin w)) cars
                             (advanceCar (Fin w) positions car)) cars (id car)
                (advanceCar (Fin w) positions car) (Fin w) eq_refl) as [v ->];
      [|reflexivity].
    rewrite mapGet_advanceCar, same_value_zero_refl. eexists. reflexivity.
Qed.

Lemma frame_keeps_positions_bounded_witness :
  positionsBounded (Fin 800) (renderFrame (Fin 800) threeCars [(Fin 1, Fin 899)]) ∧
  ∀ c, In c threeCars →
    mapHas (renderFrame (Fin 800) threeCars [(Fin 1, Fin 899)]) (id c) = true.
Proof.
  apply (frame_keeps_positions_bounded 800 threeCars [(Fin 1, Fin 899)]).
  - discriminate.
  - intros key v Hv. cbn [mapGet] in Hv.
    destruct (Num.same_value_zero (Fin 1) key); [|discriminate].
    injection Hv as <-. reflexivity.
Defined.
